(** * depot: a key-value store with optional per-value encryption

    A shallow embedding of [libdepot/libdepot.go].  The file under that
    name holds two listings of the package.  They agree, statement for
    statement, on [NewDepot], [init], [encrypt], [decrypt], [Stow] and
    [Drop]; they differ in [Fetch] (only the second listing checks for a
    nil password and has [ErrPasswordNeeded]) and in [Peek] (only the
    first listing has it).  The shared functions are embedded once, the
    two [Fetch] and the [Peek] in the modules [Rev1] (lines 1-220) and
    [Rev2] (lines 222-418).

    What is not code of the package is a parameter or an explicit state:
    - the sqlite3 database is a value of type [Database]: two optional
      tables (a table that does not exist yet is [None]), the [storage]
      table as a finite map on its [unique not null] key column;
    - [rand.Reader] and the clock behind [strftime('%s','now')] are the
      [Env] handed to each call;
    - SHA-1, the PBKDF2 iteration, AES-GCM and base64 are the fields of
      the class [Primitives]; their contracts are the class [Laws]. *)

From Stdlib Require Import ZArith NArith Lia Strings.Byte.
From stdpp Require Import gmap strings list fin_maps.

#[global] Instance byte_eq_dec : EqDecision byte := Byte.byte_eq_dec.

(** ** Go values *)

(** A non-nil [[]byte]. *)
Abbreviation bytes := (list byte).

(** A [[]byte] that may be nil: [None] is nil, [Some []] is the empty,
    non-nil slice.  [password == nil] and [nonce == nil] test for [None]. *)
Abbreviation slice := (option (list byte)).

(** The contents of a slice; a nil slice has none ([len(nil) == 0]). *)
Definition slice_data (s : slice) : bytes := default [] s.

(** Go strings are byte sequences: [[]byte(s)] and [string(b)]. *)
Definition bytes_of_string (s : string) : bytes := String.list_byte_of_string s.
Definition string_of_bytes (b : bytes) : string := String.string_of_list_byte b.

(** ** Errors *)

Inductive error : Type :=
  (* libdepot's own error values *)
  | ErrNotFound
  | ErrBadPassword
  | ErrPasswordNeeded
  (* database/sql and the sqlite3 driver *)
  | sql_ErrNoRows
  | sqlite3_Error (msg : string)
  (* io *)
  | io_EOF
  | io_ErrUnexpectedEOF
  (* crypto/aes, crypto/cipher *)
  | aes_KeySizeError (n : nat)
  | cipher_errOpen
  (* encoding/base64; the byte offset the Go value carries is left out *)
  | base64_CorruptInputError
  (* fmt.Errorf(msg + ": %w", err) *)
  | fmt_Errorf (msg : string) (err : error).

#[global] Instance error_eq_dec : EqDecision error.
Proof. solve_decision. Defined.

(** [errors.Is]: the error itself or one it wraps. *)
Fixpoint errors_Is (err target : error) : bool :=
  if decide (err = target) then true
  else match err with
       | fmt_Errorf _ inner => errors_Is inner target
       | _ => false
       end.

(** What a call comes back with: a value, an error, or a panic. *)
Inductive outcome (A : Type) : Type :=
  | Ok (a : A)
  | Err (err : error)
  | Panic (msg : string).
Arguments Ok {A} a.
Arguments Err {A} err.
Arguments Panic {A} msg.

Definition outcome_bind {A B} (f : A → outcome B) (o : outcome A) : outcome B :=
  match o with
  | Ok a => f a
  | Err e => Err e
  | Panic m => Panic m
  end.

#[global] Instance outcome_mbind : MBind outcome := @outcome_bind.
#[global] Instance outcome_mret : MRet outcome := @Ok.

(** [if err != nil { return ..., fmt.Errorf(msg + ": %w", err) }] *)
Definition wrap {A} (msg : string) (o : outcome A) : outcome A :=
  match o with
  | Err e => Err (fmt_Errorf msg e)
  | _ => o
  end.

(** The error of a result, when it is one. *)
Definition failed_with {A} (o : outcome A) (target : error) : bool :=
  match o with
  | Err e => errors_Is e target
  | _ => false
  end.

(** ** The packages libdepot imports *)

Class Primitives : Type := {
  (** [sha1.Sum]: 20 bytes. *)
  sha1_Sum : bytes → bytes;
  (** PBKDF2 over HMAC-SHA1 once the HMAC key block is fixed:
      block, salt, iteration count, output length. *)
  pbkdf2_F : bytes → bytes → nat → nat → bytes;
  (** AES-GCM: key, nonce, plaintext / ciphertext, additional data. *)
  gcm_seal : bytes → bytes → bytes → bytes → bytes;
  gcm_open : bytes → bytes → bytes → bytes → option bytes;
  (** [base64.StdEncoding]. *)
  b64_EncodeToString : bytes → string;
  b64_DecodeString : string → outcome bytes
}.

(** The contracts of the primitives that the proofs rely on. *)
Class Laws (P : Primitives) : Prop := {
  pbkdf2_F_length : ∀ block salt iter keyLen,
    length (pbkdf2_F block salt iter keyLen) = keyLen;
  gcm_open_seal : ∀ key nonce plaintext ad,
    length key = 32 → length nonce = 12 →
    gcm_open key nonce (gcm_seal key nonce plaintext ad) ad = Some plaintext;
  b64_decode_encode : ∀ b, b64_DecodeString (b64_EncodeToString b) = Ok b;
  b64_decode_error : ∀ s err,
    b64_DecodeString s = Err err → err = base64_CorruptInputError;
  b64_decode_total : ∀ s msg, b64_DecodeString s ≠ Panic msg
}.

(** [hmac.New(sha1.New, key)]: a key longer than the 64-byte block of
    SHA-1 is replaced by its hash, then the key is padded with zero bytes
    to the block size; the MAC depends on the key through this block only. *)
Definition sha1_BlockSize : nat := 64.

Definition hmac_New `{Primitives} (key : bytes) : bytes :=
  let key := if decide (sha1_BlockSize < length key) then sha1_Sum key else key in
  key ++ replicate (sha1_BlockSize - length key) x00.

(** [pbkdf2.Key(password, salt, iter, keyLen, sha1.New)]; the password is
    only ever used as the HMAC key. *)
Definition pbkdf2_Key `{Primitives} (password : slice) (salt : bytes)
    (iter keyLen : nat) : bytes :=
  pbkdf2_F (hmac_New (slice_data password)) salt iter keyLen.

(** [cipher.Block] as [aes.NewCipher] returns it. *)
Record Block : Type := { block_key : bytes }.

Definition aes_NewCipher (key : bytes) : outcome Block :=
  let k := length key in
  if decide (k = 16 ∨ k = 24 ∨ k = 32) then Ok {| block_key := key |}
  else Err (aes_KeySizeError k).

(** [cipher.AEAD]; [Seal] and [Open] take nonce, text, additional data
    (the [dst] every call here passes as nil is left out). *)
Record AEAD : Type := {
  NonceSize : nat;
  Seal : bytes → bytes → slice → outcome bytes;
  Open : bytes → bytes → slice → outcome bytes
}.

Definition gcmStandardNonceSize : nat := 12.

(** [cipher.NewGCM]: the block size of AES is 16, so it returns no error.
    Both methods panic on a nonce of the wrong length; [Open] returns
    [errOpen] when authentication fails. *)
Definition cipher_NewGCM `{Primitives} (block : Block) : outcome AEAD :=
  Ok {| NonceSize := gcmStandardNonceSize;
        Seal nonce plaintext ad :=
          if decide (length nonce = gcmStandardNonceSize)
          then Ok (gcm_seal (block_key block) nonce plaintext (slice_data ad))
          else Panic "crypto/cipher: incorrect nonce length given to GCM";
        Open nonce ciphertext ad :=
          if decide (length nonce = gcmStandardNonceSize)
          then match gcm_open (block_key block) nonce ciphertext (slice_data ad) with
               | Some plaintext => Ok plaintext
               | None => Err cipher_errOpen
               end
          else Panic "crypto/cipher: incorrect nonce length given to GCM" |}.

(** [io.ReadFull(r, buf)] with [len(buf) = n] on a reader that will
    deliver the bytes [r]: the filled buffer, or [io.EOF] /
    [io.ErrUnexpectedEOF] when the reader runs dry. *)
Definition io_ReadFull (r : bytes) (n : nat) : outcome bytes :=
  if decide (n ≤ length r) then Ok (take n r)
  else match r with
       | [] => Err io_EOF
       | _ => Err io_ErrUnexpectedEOF
       end.

(** What a call reads from its environment: the bytes [rand.Reader] will
    deliver and the clock in seconds since the epoch. *)
Record Env : Type := { rand_Reader : bytes; now : Z }.

(** ** The database

    [init] below declares the schema: table [storage] with columns
    [modified], [key] ([unique not null]), [val], [nonce] ([unique],
    nullable), and table [salt] with the one column [data].  A row of
    [storage] is stored under its key; strings and blobs come back from
    the store as they went in. *)

Record Row : Type := {
  modified : Z;
  val : string;
  nonce : slice           (* NULL is nil *)
}.

Record Database : Type := {
  storage : option (gmap string Row);
  salt_rows : option (list bytes)     (* in rowid order *)
}.

(** [create table if not exists storage (...); create table if not exists salt (...)] *)
Definition sql_create_tables (s : Database) : outcome unit * Database :=
  (Ok (), {| storage := Some (default ∅ (storage s));
             salt_rows := Some (default [] (salt_rows s)) |}).

(** [QueryRow("select data from salt").Scan(&salt)]: the first row. *)
Definition sql_select_salt (s : Database) : outcome bytes :=
  match salt_rows s with
  | None => Err (sqlite3_Error "no such table: salt")
  | Some [] => Err sql_ErrNoRows
  | Some (data :: _) => Ok data
  end.

(** [Exec("insert into salt (data) values (?)", data)] *)
Definition sql_insert_salt (data : bytes) (s : Database) : outcome unit * Database :=
  match salt_rows s with
  | None => (Err (sqlite3_Error "no such table: salt"), s)
  | Some rows =>
      (Ok (), {| storage := storage s; salt_rows := Some (rows ++ [data]) |})
  end.

(** Whether a row under another key already holds this nonce (the
    [unique] constraint on the column; NULLs never collide). *)
Definition nonce_in_use (key : string) (n : slice) (t : gmap string Row) : bool :=
  match n with
  | None => false
  | Some _ =>
      bool_decide (map_Exists (λ k r, k ≠ key ∧ nonce r = n) t)
  end.

(** [Exec("insert into storage (key, val, nonce) values (?, ?, ?)
          on conflict (key) do update set
            modified = (strftime('%s', 'now')), val = ?, nonce = ?",
          key, val, nonce, val, nonce)].
    One statement: it writes the whole row, or fails and writes nothing. *)
Definition sql_upsert (clock : Z) (key v : string) (n : slice) (s : Database)
    : outcome unit * Database :=
  match storage s with
  | None => (Err (sqlite3_Error "no such table: storage"), s)
  | Some t =>
      if nonce_in_use key n t
      then (Err (sqlite3_Error "UNIQUE constraint failed: storage.nonce"), s)
      else (Ok (), {| storage := Some (<[key := {| modified := clock; val := v; nonce := n |}]> t);
                      salt_rows := salt_rows s |})
  end.

(** [QueryRow("select val, nonce from storage where key = ?", key).Scan(&val, &nonce)] *)
Definition sql_select_row (key : string) (s : Database) : outcome (string * slice) :=
  match storage s with
  | None => Err (sqlite3_Error "no such table: storage")
  | Some t =>
      match t !! key with
      | None => Err sql_ErrNoRows
      | Some r => Ok (val r, nonce r)
      end
  end.

(** [Exec("delete from storage where key = ?", key)] *)
Definition sql_delete (key : string) (s : Database) : outcome unit * Database :=
  match storage s with
  | None => (Err (sqlite3_Error "no such table: storage"), s)
  | Some t => (Ok (), {| storage := Some (delete key t); salt_rows := salt_rows s |})
  end.

(** ** libdepot *)

(** [type Depot struct { *sql.DB; salt []byte }]; the connection is the
    [Database] the methods are run on. *)
Record Depot : Type := { salt : bytes }.

(** [func (db *Depot) init() error] *)
Definition init (s : Database) : outcome unit * Database :=
  sql_create_tables s.

(** [func NewDepot(uri string)], returning a [*Depot] and an error.
    [sql.Open] only records the driver and the uri: with the sqlite3
    driver registered it returns no error. *)
Definition NewDepot (env : Env) (s : Database) : outcome Depot * Database :=
  match sql_select_salt s with
  | Ok stored => (Ok {| salt := stored |}, s)
  | Panic m => (Panic m, s)
  | Err err =>
      let '(created, s1) :=
        if negb (errors_Is err sql_ErrNoRows) then init s else (Ok (), s) in
      match created with
      | Err err => (Err (fmt_Errorf "cannot access database" err), s1)
      | Panic m => (Panic m, s1)
      | Ok _ =>
          match io_ReadFull (rand_Reader env) 32 with
          | Err err => (Err (fmt_Errorf "cannot generate random salt" err), s1)
          | Panic m => (Panic m, s1)
          | Ok fresh =>
              match sql_insert_salt fresh s1 with
              | (Err err, s2) => (Err (fmt_Errorf "cannot access database" err), s2)
              | (Panic m, s2) => (Panic m, s2)
              | (Ok _, s2) => (Ok {| salt := fresh |}, s2)
              end
          end
      end
  end.

(** [func encrypt(password, salt, data []byte) ([]byte, []byte, error)];
    [rand] is what [rand.Reader] will deliver. *)
Definition encrypt `{Primitives} (rand : bytes) (password : slice) (salt data : bytes)
    : outcome (bytes * bytes) :=
  let encryptionKey := pbkdf2_Key password salt 4096 32 in
  block ← aes_NewCipher encryptionKey;
  nonce ← io_ReadFull rand 12;
  aesgcm ← cipher_NewGCM block;
  sealed ← Seal aesgcm nonce data None;
  Ok (sealed, nonce).

(** [func decrypt(password, salt, nonce, data []byte) ([]byte, error)] *)
Definition decrypt `{Primitives} (password : slice) (salt nonce data : bytes)
    : outcome bytes :=
  let encryptionKey := pbkdf2_Key password salt 4096 32 in
  block ← aes_NewCipher encryptionKey;
  aesgcm ← cipher_NewGCM block;
  match Open aesgcm nonce data None with
  | Err _ => Err ErrBadPassword
  | r => r
  end.

(** [func (db *Depot) Stow(key, val string, password []byte) error] *)
Definition Stow `{Primitives} (db : Depot) (key v : string) (password : slice)
    (env : Env) (s : Database) : outcome unit * Database :=
  match password with
  | None =>
      let '(r, s') := sql_upsert (now env) key v None s in
      (wrap "cannot access database" r, s')
  | Some _ =>
      match encrypt (rand_Reader env) password (salt db) (bytes_of_string v) with
      | Err err => (Err (fmt_Errorf "cannot encrypt data" err), s)
      | Panic m => (Panic m, s)
      | Ok (ciphertext, nonce) =>
          let cval := b64_EncodeToString ciphertext in
          let '(r, s') := sql_upsert (now env) key cval (Some nonce) s in
          (wrap "cannot access database" r, s')
      end
  end.

(** [func (db *Depot) Drop(key string) error] *)
Definition Drop (db : Depot) (key : string) (s : Database) : outcome unit * Database :=
  let '(r, s') := sql_delete key s in
  (wrap "cannot access database" r, s').

(** The first listing (lines 1-220). *)
Module Rev1.

(** [func (db *Depot) Fetch(key string, password []byte) (string, error)] *)
Definition Fetch `{Primitives} (db : Depot) (key : string) (password : slice)
    (s : Database) : outcome string :=
  match sql_select_row key s with
  | Err err =>
      if errors_Is err sql_ErrNoRows then Err ErrNotFound
      else Err (fmt_Errorf "cannot access database" err)
  | Panic m => Panic m
  | Ok (v, None) => Ok v
  | Ok (v, Some nonce) =>
      valbytes ← wrap "cannot decrypt data" (b64_DecodeString v);
      plaintext ← wrap "cannot decrypt data" (decrypt password (salt db) nonce valbytes);
      Ok (string_of_bytes plaintext)
  end.

(** [func (db *Depot) Peek(key string) string]: the error of [Scan] is
    dropped; without a row [data] and [nonce] keep their zero values. *)
Definition Peek (db : Depot) (key : string) (s : Database) : string :=
  let '(data, nonce) :=
    match sql_select_row key s with
    | Ok row => row
    | _ => (EmptyString, None)
    end in
  match nonce with
  | Some _ => EmptyString
  | None => data
  end.

End Rev1.

(** The second listing (lines 222-418). *)
Module Rev2.

(** [func (db *Depot) Fetch(key string, password []byte) (string, error)] *)
Definition Fetch `{Primitives} (db : Depot) (key : string) (password : slice)
    (s : Database) : outcome string :=
  match sql_select_row key s with
  | Err err =>
      if errors_Is err sql_ErrNoRows then Err ErrNotFound
      else Err (fmt_Errorf "cannot access database" err)
  | Panic m => Panic m
  | Ok (v, None) => Ok v
  | Ok (v, Some nonce) =>
      match password with
      | None => Err ErrPasswordNeeded
      | Some _ =>
          valbytes ← wrap "cannot decrypt data" (b64_DecodeString v);
          plaintext ← wrap "cannot decrypt data" (decrypt password (salt db) nonce valbytes);
          Ok (string_of_bytes plaintext)
      end
  end.

End Rev2.

(** ** An instance of the primitives

    [base64.StdEncoding] is written out (RFC 4648 alphabet, [=] padding,
    a decoder that skips line breaks and does not insist on zero trailing
    bits).  SHA-1, PBKDF2 and AES-GCM are replaced by stand-ins that have
    their shape and satisfy [Laws]; they serve to run the model. *)
Module StandIn.

Definition encodeStd : bytes :=
  bytes_of_string "ABCDEFGHIJKLMNOPQRSTUVWXYZabcdefghijklmnopqrstuvwxyz0123456789+/".

Definition StdPadding : byte := x3d.

Definition digit (i : N) : byte := default x00 (encodeStd !! N.to_nat i).

Fixpoint position (c : byte) (l : bytes) (i : N) : option N :=
  match l with
  | [] => None
  | x :: l' => if decide (x = c) then Some i else position c l' (N.succ i)
  end.

(** The decode map: the 6-bit value of a digit of the alphabet. *)
Definition value (c : byte) : option N := position c encodeStd 0.

Definition octet (n : N) : byte := default x00 (Byte.of_N n).

Fixpoint encode (src : bytes) : bytes :=
  match src with
  | [] => []
  | [a] =>
      let x := Byte.to_N a in
      [digit (x / 4); digit (x mod 4 * 16); StdPadding; StdPadding]
  | [a; b] =>
      let x := Byte.to_N a in
      let y := Byte.to_N b in
      [digit (x / 4); digit (x mod 4 * 16 + y / 16); digit (y mod 16 * 4); StdPadding]
  | a :: b :: c :: rest =>
      let x := Byte.to_N a in
      let y := Byte.to_N b in
      let z := Byte.to_N c in
      digit (x / 4) :: digit (x mod 4 * 16 + y / 16)
        :: digit (y mod 16 * 4 + z / 64) :: digit (z mod 64) :: encode rest
  end%N.

(** Quanta of four digits; padding only in the last one. *)
Fixpoint decode_quanta (src : bytes) : option bytes :=
  match src with
  | [] => Some []
  | c1 :: c2 :: c3 :: c4 :: rest =>
      v1 ← value c1;
      v2 ← value c2;
      let o1 := octet (v1 * 4 + v2 / 16) in
      if decide (c4 = StdPadding ∧ rest = []) then
        if decide (c3 = StdPadding) then Some [o1]
        else v3 ← value c3; Some [o1; octet (v2 mod 16 * 16 + v3 / 4)]
      else
        v3 ← value c3;
        v4 ← value c4;
        tail ← decode_quanta rest;
        Some (o1 :: octet (v2 mod 16 * 16 + v3 / 4) :: octet (v3 mod 4 * 64 + v4) :: tail)
  | _ => None
  end%N.

Definition is_newline (c : byte) : bool :=
  bool_decide (c = x0a ∨ c = x0d).

Definition EncodeToString (src : bytes) : string :=
  string_of_bytes (encode src).

Definition DecodeString (s : string) : outcome bytes :=
  match decode_quanta (List.filter (λ c, negb (is_newline c)) (bytes_of_string s)) with
  | Some b => Ok b
  | None => Err base64_CorruptInputError
  end.

(** Stand-ins. *)
Definition resize (n : nat) (b : bytes) : bytes := take n (b ++ replicate n x00).

Fixpoint strip_prefix (p b : bytes) : option bytes :=
  match p, b with
  | [], _ => Some b
  | x :: p', y :: b' => if decide (x = y) then strip_prefix p' b' else None
  | _ :: _, [] => None
  end.

#[global] Instance primitives : Primitives := {|
  sha1_Sum m := resize 20 m;
  pbkdf2_F block salt iter keyLen := resize keyLen (block ++ salt);
  gcm_seal key nonce plaintext ad := key ++ nonce ++ ad ++ plaintext;
  gcm_open key nonce ciphertext ad := strip_prefix (key ++ nonce ++ ad) ciphertext;
  b64_EncodeToString := EncodeToString;
  b64_DecodeString := DecodeString
|}.

End StandIn.

(** ** Reading the state *)

(** The row stored under a key, when the table exists and has one. *)
Definition record_of (key : string) (s : Database) : option Row :=
  t ← storage s; t !! key.

(** The number of rows of table [salt]. *)
Definition salt_count (s : Database) : nat := length (default [] (salt_rows s)).

(** Values to run the model on. *)
Module Demo.

Definition salt0 : bytes := bytes_of_string "0123456789abcdef0123456789abcdef".
Definition depot : Depot := {| salt := salt0 |}.

(** A database file that has never been opened. *)
Definition blank : Database := {| storage := None; salt_rows := None |}.

(** The database once [NewDepot] has run on it. *)
Definition opened : Database := {| storage := Some ∅; salt_rows := Some [salt0] |}.

Definition env (clock : Z) : Env :=
  {| rand_Reader := bytes_of_string "0123456789abcdef0123456789abcdefXYZ"; now := clock |}.

Definition password : bytes := bytes_of_string "password".

(** A row as [Stow] writes it for an encrypted value. *)
Definition sealed_row (pw : bytes) (v : string) : Row :=
  {| modified := 0;
     val := b64_EncodeToString
              (gcm_seal (pbkdf2_Key (Some pw) salt0 4096 32)
                        (bytes_of_string "0123456789ab") (bytes_of_string v) []);
     nonce := Some (bytes_of_string "0123456789ab") |}.

(** A database with a plaintext record, an encrypted one, and an
    encrypted one whose stored value is no longer base64. *)
Definition stocked : Database :=
  {| storage := Some (<["plain" := {| modified := 0; val := "testing123"; nonce := None |}]>
                      (<["secret" := sealed_row password "testing123"]>
                       (<["damaged" := {| modified := 0; val := "!!!!";
                                          nonce := Some (bytes_of_string "abcdefghijkl") |}]> ∅)));
     salt_rows := Some [salt0] |}.

End Demo.

(** ** Databases the package produces *)

(** The databases that come about from a file that does not exist yet
    through calls of the package, whatever their arguments and outcome. *)
Inductive reachable `{Primitives} : Database → Prop :=
  | reach_blank : reachable {| storage := None; salt_rows := None |}
  | reach_NewDepot env s :
      reachable s → reachable (snd (NewDepot env s))
  | reach_Stow db key v password env s :
      reachable s → reachable (snd (Stow db key v password env s))
  | reach_Drop db key s :
      reachable s → reachable (snd (Drop db key s)).

(** A row [Fetch] can work on: no nonce, or a nonce of the size the
    cipher takes and a value that decodes. *)
Definition row_ok `{Primitives} (r : Row) : bool :=
  match nonce r with
  | None => true
  | Some n =>
      bool_decide (length n = 12) &&
      match b64_DecodeString (val r) with
      | Ok _ => true
      | _ => false
      end
  end.

(** The results [Fetch] has on such rows. *)
Definition regular_result (o : outcome string) : bool :=
  match o with
  | Ok _ => true
  | Err e =>
      bool_decide (e = ErrNotFound ∨ e = ErrPasswordNeeded ∨
                   e = fmt_Errorf "cannot decrypt data" ErrBadPassword ∨
                   e = fmt_Errorf "cannot access database"
                         (sqlite3_Error "no such table: storage"))
  | Panic _ => false
  end.

(** ** Opens that interleave

    [NewDepot] issues its statements one by one, outside any transaction:
    the select, then (when that failed) [init], the read of the random
    source and the insert.  The store runs each statement as a whole, and
    the statements of another process may run between two of them.
    [NewDepot_after_select err env s] is what [NewDepot] does once its
    select has come back with the error [err], on the database [s] as it
    is by then. *)
Definition NewDepot_after_select (err : error) (env : Env) (s : Database)
    : outcome Depot * Database :=
  let '(created, s1) :=
    if negb (errors_Is err sql_ErrNoRows) then init s else (Ok (), s) in
  match created with
  | Err err => (Err (fmt_Errorf "cannot access database" err), s1)
  | Panic m => (Panic m, s1)
  | Ok _ =>
      match io_ReadFull (rand_Reader env) 32 with
      | Err err => (Err (fmt_Errorf "cannot generate random salt" err), s1)
      | Panic m => (Panic m, s1)
      | Ok fresh =>
          match sql_insert_salt fresh s1 with
          | (Err err, s2) => (Err (fmt_Errorf "cannot access database" err), s2)
          | (Panic m, s2) => (Panic m, s2)
          | (Ok _, s2) => (Ok {| salt := fresh |}, s2)
          end
      end
  end.

(** Two processes that open the same new file. *)
Module Race.

Definition env_a : Env := Demo.env 1.
Definition env_b : Env :=
  {| rand_Reader := bytes_of_string "zyxwvutsrqponmlkjihgfedcba9876543210"; now := 1 |}.




End Race.

(** ** The command line ([depot.go])

    [parseArgs] is the same in both listings of [depot.go].  Its five
    results are the four fields of [Parsed] and the error, which is given
    by its message ([None] is nil). *)
Module Cli.

Definition actStow : string := "stow".
Definition actFetch : string := "fetch".
Definition actDrop : string := "drop".
Definition actHelp : string := "help".

(** [strings.HasPrefix(s, prefix)] *)
Definition strings_HasPrefix (s prefix : string) : bool := String.prefix prefix s.

(** [strings.Contains(s, substr)] *)
Fixpoint strings_Contains (s substr : string) : bool :=
  if String.prefix substr s then true
  else match s with
       | EmptyString => false
       | String _ s' => strings_Contains s' substr
       end.

Record Parsed : Type := {
  action : string;
  key : string;
  secret : bool;
  newline : bool
}.

(** The body of [for _, a := range args] and what follows the loop. *)
Fixpoint parseArgs_from (args : list string) (st : Parsed) : Parsed * option string :=
  match args with
  | [] =>
      if bool_decide (action st = "") then (st, Some "no action specified")
      else if bool_decide (key st = "") then (st, Some "no key specified")
      else (st, None)
  | a :: rest =>
      if bool_decide (a = "-h") || bool_decide (a = "--help") ||
         bool_decide (a = "-?") || bool_decide (a = actHelp)
      then ({| action := actHelp; key := key st;
               secret := secret st; newline := newline st |}, None)
      else if strings_HasPrefix a "-" then
        parseArgs_from rest
          {| action := action st; key := key st;
             secret := secret st || strings_Contains a "s";
             newline := negb (negb (newline st) || strings_Contains a "n") |}
      else if bool_decide (action st = "") then
        parseArgs_from rest
          {| action := a; key := key st; secret := secret st; newline := newline st |}
      else if bool_decide (key st = "") then
        parseArgs_from rest
          {| action := action st; key := a; secret := secret st; newline := newline st |}
      else (st, Some "one key at a time")
  end.

(** [func parseArgs(args []string) (string, string, bool, bool, error)] *)
Definition parseArgs (args : list string) : Parsed * option string :=
  parseArgs_from args {| action := ""; key := ""; secret := false; newline := true |}.

(** The arguments [parseArgs] answers with the help action. *)
Definition help_word (a : string) : bool :=
  bool_decide (a = "-h") || bool_decide (a = "--help") ||
  bool_decide (a = "-?") || bool_decide (a = actHelp).

(** The arguments it reads as options, and the others. *)
Definition is_option (a : string) : bool := strings_HasPrefix a "-".
Definition positionals (args : list string) : list string :=
  List.filter (λ a, negb (is_option a)) args.

(** Whether some option holds the letter. *)
Definition option_letter (letter : string) (args : list string) : bool :=
  existsb (λ a, is_option a && strings_Contains a letter) args.

End Cli.

(** More values to run the model on. *)
Module Sample.

Definition other_password : bytes := bytes_of_string "hunter2".

(** The random source of [Demo.env] once its first 12 bytes are spent. *)
Definition later_env (clock : Z) : Env :=
  {| rand_Reader := bytes_of_string "cdef0123456789abcdefXYZ"; now := clock |}.

(** A random source that runs dry. *)
Definition dry_env : Env := {| rand_Reader := bytes_of_string "0123"; now := 5 |}.

(** [Demo.opened] with one encrypted record. *)
Definition one_secret : Database :=
  snd (Stow Demo.depot "first" "testing123" (Some Demo.password) (Demo.env 1) Demo.opened).

(** The nonce, the ciphertext and the row of that record. *)
Definition nonce0 : bytes := bytes_of_string "0123456789ab".
Definition sealed0 : bytes :=
  gcm_seal (pbkdf2_Key (Some Demo.password) Demo.salt0 4096 32)
           nonce0 (bytes_of_string "testing123") [].
Definition row0 : Row :=
  {| modified := 1; val := b64_EncodeToString sealed0; nonce := Some nonce0 |}.

(** [Demo.stocked] with a record whose value is the empty string. *)
Definition with_empty_value : Database :=
  snd (Stow Demo.depot "empty" "" None (Demo.env 1) Demo.stocked).

End Sample.

(** * Proofs *)

(** ** Errors and outcomes *)

Lemma errors_Is_refl err : errors_Is err err = true.
Proof. destruct err; simpl; try case_decide; done. Qed.

Lemma errors_Is_Errorf msg err target :
  target ≠ fmt_Errorf msg err →
  errors_Is (fmt_Errorf msg err) target = errors_Is err target.
Proof. intros Hne. simpl. case_decide; [congruence | done]. Qed.

Lemma wrap_Ok {A} msg (o : outcome A) a : wrap msg o = Ok a ↔ o = Ok a.
Proof. destruct o; simpl; split; congruence. Qed.

Lemma io_ReadFull_Ok r n b :
  io_ReadFull r n = Ok b ↔ n ≤ length r ∧ b = take n r.
Proof.
  unfold io_ReadFull. case_decide.
  - split; [intros [= <-]; done | intros [_ ->]; done].
  - split; [destruct r; discriminate | intros [? _]; lia].
Qed.

Lemma io_ReadFull_length r n b : io_ReadFull r n = Ok b → length b = n.
Proof.
  intros Hr. apply io_ReadFull_Ok in Hr as [Hn ->]. rewrite length_take. lia.
Qed.

(** ** base64.StdEncoding decodes what it encodes *)

Module StandInFacts.
Import StandIn.

(** Linear arithmetic with division and remainder by constants. *)
Ltac divlia := zify; Z.to_euclidean_division_equations; lia.

Lemma value_digit i : (i < 64)%N → value (digit i) = Some i.
Proof.
  intros Hi.
  assert (Hnat : ∀ n, n < 64 → value (digit (N.of_nat n)) = Some (N.of_nat n)).
  { intros n Hn.
    do 64 (destruct n as [|n]; [vm_compute; reflexivity |]). lia. }
  rewrite <- (N2Nat.id i). apply Hnat. lia.
Qed.

Lemma digit_not_special i :
  (i < 64)%N → digit i ≠ StdPadding ∧ is_newline (digit i) = false.
Proof.
  intros Hi.
  assert (Hnat : ∀ n, n < 64 →
            digit (N.of_nat n) ≠ StdPadding ∧ is_newline (digit (N.of_nat n)) = false).
  { intros n Hn.
    do 64 (destruct n as [|n];
           [vm_compute; split; [discriminate | reflexivity] |]). lia. }
  rewrite <- (N2Nat.id i). apply Hnat. lia.
Qed.

Lemma octet_to_N a : octet (Byte.to_N a) = a.
Proof. unfold octet. by rewrite Byte.of_to_N. Qed.

Lemma to_N_lt a : (Byte.to_N a < 256)%N.
Proof. pose proof (Byte.to_N_bounded a). lia. Qed.

(** Lists three elements at a time, the way the encoder reads them. *)
Lemma list_ind3 {A} (Q : list A → Prop) :
  Q [] → (∀ a, Q [a]) → (∀ a b, Q [a; b]) →
  (∀ a b c l, Q l → Q (a :: b :: c :: l)) →
  ∀ l, Q l.
Proof.
  intros H0 H1 H2 H3.
  assert (Hall : ∀ l, Q l ∧ (∀ a, Q (a :: l)) ∧ (∀ a b, Q (a :: b :: l))).
  { induction l as [|x l (IH0 & IH1 & IH2)]; [by auto |].
    split; [apply IH1 |]. split; [intros; apply IH2 | intros; by apply H3]. }
  intros l. apply Hall.
Qed.

Lemma digit_not_newline i : (i < 64)%N → negb (is_newline (digit i)) = true.
Proof. intros Hi. by rewrite (proj2 (digit_not_special i Hi)). Qed.

Lemma encode_no_newline src :
  List.filter (λ c, negb (is_newline c)) (encode src) = encode src.
Proof.
  induction src as [| a | a b | a b c l IH] using list_ind3.
  - done.
  - pose proof (to_N_lt a). cbn [encode List.filter].
    rewrite !digit_not_newline by divlia. done.
  - pose proof (to_N_lt a). pose proof (to_N_lt b). cbn [encode List.filter].
    rewrite !digit_not_newline by divlia. done.
  - pose proof (to_N_lt a). pose proof (to_N_lt b). pose proof (to_N_lt c).
    change (encode (a :: b :: c :: l)) with
      (digit (Byte.to_N a / 4) :: digit (Byte.to_N a mod 4 * 16 + Byte.to_N b / 16)
       :: digit (Byte.to_N b mod 16 * 4 + Byte.to_N c / 64)
       :: digit (Byte.to_N c mod 64) :: encode l)%N.
    cbn [List.filter].
    rewrite !digit_not_newline by divlia. by rewrite IH.
Qed.

Ltac decode_digits :=
  repeat match goal with
         | |- context [value (digit ?i)] => rewrite (value_digit i) by divlia
         end.

Lemma decode_quanta_encode src : decode_quanta (encode src) = Some src.
Proof.
  induction src as [| a | a b | a b c l IH] using list_ind3.
  - done.
  - pose proof (to_N_lt a). cbn [encode decode_quanta].
    decode_digits. cbn [mbind option_bind].
    rewrite decide_True by done. rewrite decide_True by done.
    replace (Byte.to_N a / 4 * 4 + Byte.to_N a mod 4 * 16 / 16)%N
      with (Byte.to_N a) by divlia.
    by rewrite octet_to_N.
  - pose proof (to_N_lt a). pose proof (to_N_lt b). cbn [encode decode_quanta].
    decode_digits. cbn [mbind option_bind].
    rewrite decide_True by done.
    rewrite decide_False by (apply digit_not_special; divlia).
    decode_digits. cbn [mbind option_bind].
    replace (Byte.to_N a / 4 * 4 + (Byte.to_N a mod 4 * 16 + Byte.to_N b / 16) / 16)%N
      with (Byte.to_N a) by divlia.
    replace ((Byte.to_N a mod 4 * 16 + Byte.to_N b / 16) mod 16 * 16
             + Byte.to_N b mod 16 * 4 / 4)%N
      with (Byte.to_N b) by divlia.
    by rewrite !octet_to_N.
  - pose proof (to_N_lt a). pose proof (to_N_lt b). pose proof (to_N_lt c).
    change (encode (a :: b :: c :: l)) with
      (digit (Byte.to_N a / 4) :: digit (Byte.to_N a mod 4 * 16 + Byte.to_N b / 16)
       :: digit (Byte.to_N b mod 16 * 4 + Byte.to_N c / 64)
       :: digit (Byte.to_N c mod 64) :: encode l)%N.
    cbn [decode_quanta].
    decode_digits. cbn [mbind option_bind].
    rewrite decide_False by (intros [Hpad _]; revert Hpad; apply digit_not_special; divlia).
    decode_digits. rewrite IH. cbn [mbind option_bind].
    replace (Byte.to_N a / 4 * 4 + (Byte.to_N a mod 4 * 16 + Byte.to_N b / 16) / 16)%N
      with (Byte.to_N a) by divlia.
    replace ((Byte.to_N a mod 4 * 16 + Byte.to_N b / 16) mod 16 * 16
             + (Byte.to_N b mod 16 * 4 + Byte.to_N c / 64) / 4)%N
      with (Byte.to_N b) by divlia.
    replace ((Byte.to_N b mod 16 * 4 + Byte.to_N c / 64) mod 4 * 64
             + Byte.to_N c mod 64)%N
      with (Byte.to_N c) by divlia.
    by rewrite !octet_to_N.
Qed.

Lemma DecodeString_EncodeToString b : DecodeString (EncodeToString b) = Ok b.
Proof.
  unfold DecodeString, EncodeToString, bytes_of_string, string_of_bytes.
  rewrite String.list_byte_of_string_of_list_byte.
  by rewrite encode_no_newline, decode_quanta_encode.
Qed.

Lemma strip_prefix_app p b : strip_prefix p (p ++ b) = Some b.
Proof. induction p as [|x p IH]; simpl; [done |]. by rewrite decide_True. Qed.

Lemma laws : Laws primitives.
Proof.
  split.
  - intros block salt iter keyLen. simpl. unfold resize.
    rewrite length_take, !length_app, length_replicate. lia.
  - intros key nonce plaintext ad _ _. simpl.
    replace (key ++ nonce ++ ad ++ plaintext)
      with ((key ++ nonce ++ ad) ++ plaintext) by (by rewrite <- !app_assoc).
    apply strip_prefix_app.
  - apply DecodeString_EncodeToString.
  - intros s err. simpl. unfold DecodeString.
    destruct (decode_quanta _); congruence.
  - intros s msg. simpl. unfold DecodeString.
    destruct (decode_quanta _); congruence.
Qed.

End StandInFacts.

(** ** The cipher *)

Section Depot.
Context `{P : Primitives} {L : Laws P}.

Lemma pbkdf2_Key_length password salt iter keyLen :
  length (pbkdf2_Key password salt iter keyLen) = keyLen.
Proof. unfold pbkdf2_Key. apply pbkdf2_F_length. Qed.

Lemma aes_NewCipher_32 key :
  length key = 32 → aes_NewCipher key = Ok {| block_key := key |}.
Proof. intros Hlen. unfold aes_NewCipher. rewrite decide_True; [done | lia]. Qed.

(** [encrypt] fails only when the random source does. *)
Lemma encrypt_eq rand password salt data :
  encrypt rand password salt data =
  match io_ReadFull rand 12 with
  | Ok nonce => Ok (gcm_seal (pbkdf2_Key password salt 4096 32) nonce data [], nonce)
  | Err err => Err err
  | Panic m => Panic m
  end.
Proof.
  unfold encrypt. rewrite aes_NewCipher_32 by apply pbkdf2_Key_length.
  cbn [mbind outcome_mbind outcome_bind].
  destruct (io_ReadFull rand 12) as [nonce| |] eqn:Hread; [| done | done].
  apply io_ReadFull_length in Hread.
  unfold cipher_NewGCM. cbn [mbind outcome_mbind outcome_bind Seal].
  by rewrite decide_True.
Qed.

(** [decrypt] on a nonce of the standard size: the plaintext, or
    [ErrBadPassword] whenever [Open] fails to authenticate. *)
Lemma decrypt_eq password salt nonce data :
  length nonce = 12 →
  decrypt password salt nonce data =
  match gcm_open (pbkdf2_Key password salt 4096 32) nonce data [] with
  | Some plaintext => Ok plaintext
  | None => Err ErrBadPassword
  end.
Proof.
  intros Hlen. unfold decrypt.
  rewrite aes_NewCipher_32 by apply pbkdf2_Key_length.
  unfold cipher_NewGCM. cbn [mbind outcome_mbind outcome_bind Open].
  rewrite decide_True by done. cbn [block_key slice_data default].
  by destruct (gcm_open _ _ _ _).
Qed.

Lemma decrypt_encrypt rand password salt data sealed nonce :
  encrypt rand password salt data = Ok (sealed, nonce) →
  decrypt password salt nonce sealed = Ok data.
Proof.
  rewrite encrypt_eq.
  destruct (io_ReadFull rand 12) as [n| |] eqn:Hread; [| done | done].
  intros [= <- <-]. apply io_ReadFull_length in Hread.
  rewrite decrypt_eq by done.
  by rewrite gcm_open_seal by (apply pbkdf2_Key_length || done).
Qed.

(** The only errors of [decrypt]. *)
Lemma decrypt_error password salt nonce data err :
  decrypt password salt nonce data = Err err → err = ErrBadPassword.
Proof.
  unfold decrypt. rewrite aes_NewCipher_32 by apply pbkdf2_Key_length.
  unfold cipher_NewGCM. cbn [mbind outcome_mbind outcome_bind Open].
  case_decide; [| done]. destruct (gcm_open _ _ _ _); congruence.
Qed.

(** ** Stow *)

Lemma sql_upsert_Ok clock key v n s s' :
  sql_upsert clock key v n s = (Ok (), s') →
  ∃ t, storage s = Some t ∧ nonce_in_use key n t = false ∧
       s' = {| storage := Some (<[key := {| modified := clock; val := v; nonce := n |}]> t);
               salt_rows := salt_rows s |}.
Proof.
  unfold sql_upsert. destruct (storage s) as [t|]; [| done].
  destruct (nonce_in_use key n t) eqn:Huse; [done |].
  intros [= <-]. by exists t.
Qed.

Lemma sql_upsert_failed clock key v n s r s' :
  sql_upsert clock key v n s = (r, s') → r ≠ Ok () → s' = s.
Proof.
  unfold sql_upsert. destruct (storage s) as [t|]; [| congruence].
  destruct (nonce_in_use key n t); congruence.
Qed.

Lemma Stow_plain_Ok db key v env s s' :
  Stow db key v None env s = (Ok (), s') →
  ∃ t, storage s = Some t ∧
       s' = {| storage := Some (<[key := {| modified := now env; val := v; nonce := None |}]> t);
               salt_rows := salt_rows s |}.
Proof.
  unfold Stow.
  destruct (sql_upsert (now env) key v None s) as [r s1] eqn:Hup.
  intros [= Hr <-]. apply wrap_Ok in Hr as ->.
  apply sql_upsert_Ok in Hup as (t & Ht & _ & ->). by exists t.
Qed.

Lemma Stow_secret_Ok db key v p env s s' :
  Stow db key v (Some p) env s = (Ok (), s') →
  ∃ t n, storage s = Some t ∧ io_ReadFull (rand_Reader env) 12 = Ok n ∧
         nonce_in_use key (Some n) t = false ∧
         s' = {| storage :=
                   Some (<[key := {| modified := now env;
                                     val := b64_EncodeToString
                                              (gcm_seal (pbkdf2_Key (Some p) (salt db) 4096 32)
                                                        n (bytes_of_string v) []);
                                     nonce := Some n |}]> t);
                 salt_rows := salt_rows s |}.
Proof.
  unfold Stow. rewrite encrypt_eq.
  destruct (io_ReadFull (rand_Reader env) 12) as [n| |] eqn:Hread; [| done | done].
  destruct (sql_upsert _ _ _ _ _) as [r s1] eqn:Hup.
  intros [= Hr <-]. apply wrap_Ok in Hr as ->.
  apply sql_upsert_Ok in Hup as (t & Ht & Huse & ->). by exists t, n.
Qed.

(** When [Stow] does succeed: the table exists and, for a password, the
    random source yields the 12 bytes of a nonce no other record holds. *)
Lemma Stow_plain_succeeds db key v env s t :
  storage s = Some t →
  Stow db key v None env s =
    (Ok (), {| storage := Some (<[key := {| modified := now env; val := v; nonce := None |}]> t);
               salt_rows := salt_rows s |}).
Proof. intros Ht. unfold Stow, sql_upsert. by rewrite Ht. Qed.

Lemma Stow_secret_succeeds db key v p env s t :
  storage s = Some t → 12 ≤ length (rand_Reader env) →
  nonce_in_use key (Some (take 12 (rand_Reader env))) t = false →
  ∃ s', Stow db key v (Some p) env s = (Ok (), s').
Proof.
  intros Ht Hrand Hfree. unfold Stow. rewrite encrypt_eq.
  rewrite (proj2 (io_ReadFull_Ok _ _ _) (conj Hrand eq_refl)).
  unfold sql_upsert. rewrite Ht, Hfree. by eexists.
Qed.

(** A [Stow] that does not succeed leaves the database as it was. *)
Lemma Stow_failed db key v password env s r s' :
  Stow db key v password env s = (r, s') → r ≠ Ok () → s' = s.
Proof.
  unfold Stow. destruct password as [p|].
  - destruct (encrypt _ _ _ _) as [[sealed n]| |]; [| congruence | congruence].
    destruct (sql_upsert _ _ _ _ _) as [r1 s1] eqn:Hup.
    intros [= <- <-] Hr. eapply sql_upsert_failed; [done |].
    intros ->. by apply Hr.
  - destruct (sql_upsert _ _ _ _ _) as [r1 s1] eqn:Hup.
    intros [= <- <-] Hr. eapply sql_upsert_failed; [done |].
    intros ->. by apply Hr.
Qed.

(** ** Fetch and Peek on a stored row *)

Lemma sql_select_row_record key s r :
  record_of key s = Some r → sql_select_row key s = Ok (val r, nonce r).
Proof.
  unfold record_of, sql_select_row. destruct (storage s) as [t|]; [| done].
  cbn. by intros ->.
Qed.

Lemma sql_select_row_missing key s :
  is_Some (storage s) → record_of key s = None → sql_select_row key s = Err sql_ErrNoRows.
Proof.
  unfold record_of, sql_select_row. intros [t ->]. cbn. by intros ->.
Qed.

(** What both listings do with a row that holds a nonce once they have
    a password to try. *)
Lemma Fetch_sealed db key password s r n :
  record_of key s = Some r → nonce r = Some n →
  Rev1.Fetch db key password s =
    (valbytes ← wrap "cannot decrypt data" (b64_DecodeString (val r));
     plaintext ← wrap "cannot decrypt data" (decrypt password (salt db) n valbytes);
     Ok (string_of_bytes plaintext)).
Proof.
  intros Hrow Hn. unfold Rev1.Fetch.
  rewrite (sql_select_row_record _ _ _ Hrow), Hn. done.
Qed.

Lemma Fetch_plain db key password s r :
  record_of key s = Some r → nonce r = None →
  Rev1.Fetch db key password s = Ok (val r) ∧ Rev2.Fetch db key password s = Ok (val r).
Proof.
  intros Hrow Hn. unfold Rev1.Fetch, Rev2.Fetch.
  rewrite (sql_select_row_record _ _ _ Hrow), Hn. done.
Qed.

(** The two listings differ on a nil password only. *)
Lemma Fetch_same db key p s :
  Rev2.Fetch db key (Some p) s = Rev1.Fetch db key (Some p) s.
Proof.
  unfold Rev1.Fetch, Rev2.Fetch.
  destruct (sql_select_row key s) as [[v [n|]]| |]; done.
Qed.

Lemma Peek_record db key s :
  Rev1.Peek db key s =
  match record_of key s with
  | Some r => match nonce r with Some _ => EmptyString | None => val r end
  | None => EmptyString
  end.
Proof.
  unfold Rev1.Peek, record_of, sql_select_row.
  destruct (storage s) as [t|]; [| done]. cbn.
  destruct (t !! key) as [r|]; done.
Qed.

Lemma record_of_upsert key k r t rows :
  record_of k {| storage := Some (<[key := r]> t); salt_rows := rows |} =
  if decide (key = k) then Some r else t !! k.
Proof. unfold record_of. cbn. apply lookup_insert. Qed.

(** ** Records that [Stow] sealed *)

(** What [Fetch] returns for a record [Stow] sealed, under any password. *)
Lemma Fetch_after_Stow db K V p p' env s s' :
  Stow db K V (Some p) env s = (Ok (), s') →
  Rev1.Fetch db K (Some p') s' =
  match gcm_open (pbkdf2_Key (Some p') (salt db) 4096 32) (take 12 (rand_Reader env))
                 (gcm_seal (pbkdf2_Key (Some p) (salt db) 4096 32)
                           (take 12 (rand_Reader env)) (bytes_of_string V) []) [] with
  | Some plaintext => Ok (string_of_bytes plaintext)
  | None => Err (fmt_Errorf "cannot decrypt data" ErrBadPassword)
  end.
Proof.
  intros Hstow.
  apply Stow_secret_Ok in Hstow as (t & n & Ht & Hread & _ & ->).
  pose proof (io_ReadFull_length _ _ _ Hread) as Hlen.
  apply io_ReadFull_Ok in Hread as [_ ->].
  erewrite Fetch_sealed; [| by rewrite record_of_upsert, decide_True | done].
  cbn [val]. rewrite b64_decode_encode.
  cbn [wrap mbind outcome_mbind outcome_bind].
  rewrite decrypt_eq by done.
  by destruct (gcm_open _ _ _ _).
Qed.

(** The HMAC key block does not see a zero byte at the end of a key. *)
Lemma hmac_New_zero_padded key :
  length key < sha1_BlockSize → hmac_New (key ++ [x00]) = hmac_New key.
Proof.
  unfold hmac_New, sha1_BlockSize. intros Hlen.
  rewrite !decide_False by (rewrite ?length_app; simpl; lia).
  rewrite length_app. simpl.
  replace (64 - length key) with (S (64 - (length key + 1))) by lia.
  by rewrite <- app_assoc.
Qed.

(** A password with the HMAC key block of the one used to stow derives
    the same key and opens the record; so does that password itself. *)
Lemma Fetch_same_key_block db K V p p' env s s' :
  Stow db K V (Some p) env s = (Ok (), s') → hmac_New p' = hmac_New p →
  Rev1.Fetch db K (Some p') s' = Ok V ∧ Rev2.Fetch db K (Some p') s' = Ok V.
Proof.
  intros Hstow Hblock. rewrite Fetch_same, (Fetch_after_Stow db K V p p' env s s' Hstow).
  unfold pbkdf2_Key.
  change (slice_data (Some p')) with p'. change (slice_data (Some p)) with p.
  rewrite Hblock, gcm_open_seal.
  - unfold string_of_bytes, bytes_of_string.
    by rewrite String.string_of_list_byte_of_string.
  - apply pbkdf2_F_length.
  - apply Stow_secret_Ok in Hstow as (t & n & _ & Hread & _).
    pose proof (io_ReadFull_length _ _ _ Hread) as Hlen.
    by apply io_ReadFull_Ok in Hread as [_ ->].
Qed.

Lemma Fetch_stowed db K V p env s s' :
  Stow db K V (Some p) env s = (Ok (), s') →
  Rev1.Fetch db K (Some p) s' = Ok V ∧ Rev2.Fetch db K (Some p) s' = Ok V.
Proof. intros Hstow. by apply (Fetch_same_key_block db K V p p env s s'). Qed.

Lemma Peek_stowed_secret db K V p env s s' :
  Stow db K V (Some p) env s = (Ok (), s') → Rev1.Peek db K s' = EmptyString.
Proof.
  intros Hstow. apply Stow_secret_Ok in Hstow as (t & n & _ & _ & _ & ->).
  by rewrite Peek_record, record_of_upsert, decide_True.
Qed.

(** ** Round trips *)

(** C1.  After [Stow(K, V, P)] succeeds with a password [P] that is not
    nil (in particular with every non-empty one), [Fetch(K, P)] returns
    exactly [V], in both listings, and [Peek(K)] returns the empty
    string, which is not [V] unless [V] itself is empty. *)
Theorem stow_fetch_encrypted db K V p env s s' :
  Stow db K V (Some p) env s = (Ok (), s') →
  Rev1.Fetch db K (Some p) s' = Ok V ∧
  Rev2.Fetch db K (Some p) s' = Ok V ∧
  Rev1.Peek db K s' = EmptyString ∧
  (V ≠ EmptyString → Rev1.Peek db K s' ≠ V).
Proof.
  intros Hstow.
  destruct (Fetch_stowed db K V p env s s' Hstow) as [Hf1 Hf2].
  pose proof (Peek_stowed_secret db K V p env s s' Hstow) as Hpeek.
  split; [done |]. split; [done |]. split; [done |].
  rewrite Hpeek. congruence.
Qed.

(** C2.  After [Stow(K, V, nil)] succeeds, [Fetch(K, nil)] returns
    exactly [V], in both listings, and so does [Peek(K)]. *)
Theorem stow_fetch_plaintext db K V env s s' :
  Stow db K V None env s = (Ok (), s') →
  Rev1.Fetch db K None s' = Ok V ∧
  Rev2.Fetch db K None s' = Ok V ∧
  Rev1.Peek db K s' = V.
Proof.
  intros Hstow. apply Stow_plain_Ok in Hstow as (t & Ht & ->).
  pose proof (Fetch_plain db K None
                {| storage := Some (<[K := {| modified := now env; val := V; nonce := None |}]> t);
                   salt_rows := salt_rows s |}
                {| modified := now env; val := V; nonce := None |}) as Hfetch.
  destruct Hfetch as [H1 H2]; [by rewrite record_of_upsert, decide_True | done |].
  split; [done |]. split; [done |].
  by rewrite Peek_record, record_of_upsert, decide_True.
Qed.

(** ** Error kinds *)

(** The first listing has no such check: with a nil password it goes on
    to decrypt, under the key derived from the empty password, and never
    answers [ErrPasswordNeeded]. *)
Lemma first_listing_tries_nil_password db K s r n :
  record_of K s = Some r → nonce r = Some n →
  Rev1.Fetch db K None s = Rev1.Fetch db K (Some []) s ∧
  failed_with (Rev1.Fetch db K None s) ErrPasswordNeeded = false.
Proof.
  intros Hrow Hn. rewrite !(Fetch_sealed _ _ _ _ _ _ Hrow Hn). split; [done |].
  destruct (b64_DecodeString (val r)) as [valbytes|err|m] eqn:Hdec; [| | done].
  - cbn [wrap mbind outcome_mbind outcome_bind].
    destruct (decrypt None (salt db) n valbytes) as [pt|err|m] eqn:Hopen; [done | | done].
    apply decrypt_error in Hopen as ->. done.
  - apply b64_decode_error in Hdec as ->. done.
Qed.

(** C3, amended.  When the record stored under [K] holds a nonce,
    [Fetch(K, nil)] of the listing that declares [ErrPasswordNeeded]
    (lines 378-409) fails with that error itself: the error is not
    [ErrBadPassword] and matches no other error value.  The [Fetch] of
    the other listing (lines 162-192) has no test of the password: it
    decrypts with nil as with the empty password, never answers
    [ErrPasswordNeeded], and on a value that decodes and a nonce of 12
    bytes fails with [ErrBadPassword] whenever the key derived from the
    empty password does not authenticate the ciphertext. *)
Theorem fetch_needs_password db K s r n :
  record_of K s = Some r → nonce r = Some n →
  (Rev2.Fetch db K None s = Err ErrPasswordNeeded ∧
   failed_with (Rev2.Fetch db K None s) ErrBadPassword = false ∧
   (∀ target, target ≠ ErrPasswordNeeded →
              failed_with (Rev2.Fetch db K None s) target = false)) ∧
  (Rev1.Fetch db K None s = Rev1.Fetch db K (Some []) s ∧
   failed_with (Rev1.Fetch db K None s) ErrPasswordNeeded = false ∧
   (∀ sealed,
      length n = 12 → b64_DecodeString (val r) = Ok sealed →
      gcm_open (pbkdf2_Key None (salt db) 4096 32) n sealed [] = None →
      Rev1.Fetch db K None s = Err (fmt_Errorf "cannot decrypt data" ErrBadPassword) ∧
      failed_with (Rev1.Fetch db K None s) ErrBadPassword = true)).
Proof.
  intros Hrow Hn. split.
  - assert (Hfetch : Rev2.Fetch db K None s = Err ErrPasswordNeeded).
    { unfold Rev2.Fetch. by rewrite (sql_select_row_record _ _ _ Hrow), Hn. }
    rewrite Hfetch. split; [done |]. split; [done |].
    intros target Hne. cbn. by rewrite decide_False.
  - destruct (first_listing_tries_nil_password db K s r n Hrow Hn) as [Hsame Hnever].
    split; [done |]. split; [done |].
    intros sealed Hlen Hdec Hopen.
    rewrite (Fetch_sealed _ _ _ _ _ _ Hrow Hn), Hdec.
    cbn [wrap mbind outcome_mbind outcome_bind].
    rewrite decrypt_eq by done. by rewrite Hopen.
Qed.

(** C4.  [Peek] returns a string and nothing else, so it raises no
    error.  It returns the stored value when [K] has a record without a
    nonce, and the empty string when [K] has no record, when the record
    holds a nonce, and when the table cannot be read: the caller sees the
    same result in all of the latter cases. *)
Theorem peek_never_fails db K s :
  (∀ r, record_of K s = Some r → nonce r = None → Rev1.Peek db K s = val r) ∧
  (record_of K s = None → Rev1.Peek db K s = EmptyString) ∧
  (∀ r n, record_of K s = Some r → nonce r = Some n → Rev1.Peek db K s = EmptyString) ∧
  (∀ K' s' r n,
     record_of K s = None → record_of K' s' = Some r → nonce r = Some n →
     Rev1.Peek db K s = Rev1.Peek db K' s').
Proof.
  rewrite Peek_record. split; [| split; [| split]].
  - by intros r -> ->.
  - by intros ->.
  - by intros r n -> ->.
  - intros K' s' r n -> Hrow Hn. by rewrite Peek_record, Hrow, Hn.
Qed.

(** ** Passwords that do not match *)

(** C5, amended.  After [Stow(K, V, P)] succeeds with a non-nil [P],
    [Fetch(K, P')] with a non-nil [P'] fails with [ErrBadPassword]
    whenever the key derived from [P'] does not authenticate the stored
    ciphertext, and returns what [Open] recovers otherwise; a [P'] with
    the HMAC key block of [P] derives the key of [P] and fetches [V]. *)
Theorem fetch_with_other_password db K V p p' env s s' :
  Stow db K V (Some p) env s = (Ok (), s') →
  let n := take 12 (rand_Reader env) in
  let sealed := gcm_seal (pbkdf2_Key (Some p) (salt db) 4096 32) n (bytes_of_string V) [] in
  let opened := gcm_open (pbkdf2_Key (Some p') (salt db) 4096 32) n sealed [] in
  (opened = None →
     failed_with (Rev1.Fetch db K (Some p') s') ErrBadPassword = true ∧
     failed_with (Rev2.Fetch db K (Some p') s') ErrBadPassword = true) ∧
  (∀ plaintext, opened = Some plaintext →
     Rev1.Fetch db K (Some p') s' = Ok (string_of_bytes plaintext) ∧
     Rev2.Fetch db K (Some p') s' = Ok (string_of_bytes plaintext)) ∧
  (hmac_New p' = hmac_New p →
     Rev1.Fetch db K (Some p') s' = Ok V ∧ Rev2.Fetch db K (Some p') s' = Ok V).
Proof.
  intros Hstow n sealed opened.
  split; [| split].
  - intros Hopened.
    rewrite Fetch_same, (Fetch_after_Stow db K V p p' env s s' Hstow).
    fold n sealed opened. by rewrite Hopened.
  - intros plaintext Hopened.
    rewrite Fetch_same, (Fetch_after_Stow db K V p p' env s s' Hstow).
    fold n sealed opened. by rewrite Hopened.
  - by apply (Fetch_same_key_block db K V p p' env s s').
Qed.

(** Whatever the primitives, a password and the same password followed
    by a zero byte open the same records. *)
Lemma zero_padded_password_fetches db K V p env s s' :
  Stow db K V (Some p) env s = (Ok (), s') → length p < 64 →
  Rev1.Fetch db K (Some (p ++ [x00])) s' = Ok V ∧
  Rev2.Fetch db K (Some (p ++ [x00])) s' = Ok V.
Proof.
  intros Hstow Hlen.
  apply (Fetch_same_key_block db K V p (p ++ [x00]) env s s' Hstow).
  by apply hmac_New_zero_padded.
Qed.

(** ** Damaged records *)

(** C6, amended.  On a record that holds a 12-byte nonce and a value
    that is valid base64, [Fetch] with a non-nil password has one way to
    fail: [ErrBadPassword], whatever made [Open] reject (the password,
    the ciphertext or the nonce).  A stored value that is not valid
    base64 comes back as the error of the decoder, wrapped, which is not
    [ErrBadPassword]. *)
Theorem fetch_damaged_record db K p s r n :
  record_of K s = Some r → nonce r = Some n → length n = 12 →
  (∀ sealed, b64_DecodeString (val r) = Ok sealed →
     let opened := gcm_open (pbkdf2_Key (Some p) (salt db) 4096 32) n sealed [] in
     (opened = None →
        Rev1.Fetch db K (Some p) s = Err (fmt_Errorf "cannot decrypt data" ErrBadPassword) ∧
        Rev2.Fetch db K (Some p) s = Err (fmt_Errorf "cannot decrypt data" ErrBadPassword)) ∧
     (∀ plaintext, opened = Some plaintext →
        Rev1.Fetch db K (Some p) s = Ok (string_of_bytes plaintext) ∧
        Rev2.Fetch db K (Some p) s = Ok (string_of_bytes plaintext))) ∧
  (∀ err, b64_DecodeString (val r) = Err err →
     Rev1.Fetch db K (Some p) s = Err (fmt_Errorf "cannot decrypt data" base64_CorruptInputError) ∧
     Rev2.Fetch db K (Some p) s = Err (fmt_Errorf "cannot decrypt data" base64_CorruptInputError) ∧
     failed_with (Rev1.Fetch db K (Some p) s) ErrBadPassword = false ∧
     failed_with (Rev2.Fetch db K (Some p) s) ErrBadPassword = false).
Proof.
  intros Hrow Hn Hlen. rewrite Fetch_same, (Fetch_sealed _ _ _ _ _ _ Hrow Hn).
  split.
  - intros sealed -> opened. cbn [wrap mbind outcome_mbind outcome_bind].
    rewrite decrypt_eq by done. fold opened.
    split; [by intros -> | by intros plaintext ->].
  - intros err Hdec. pose proof (b64_decode_error _ _ Hdec) as ->.
    rewrite Hdec. done.
Qed.

(** A nonce of another length does not come back as an error at all. *)
Lemma fetch_resized_nonce_panics db K p s r n sealed :
  record_of K s = Some r → nonce r = Some n → length n ≠ 12 →
  b64_DecodeString (val r) = Ok sealed →
  Rev1.Fetch db K (Some p) s = Panic "crypto/cipher: incorrect nonce length given to GCM" ∧
  Rev2.Fetch db K (Some p) s = Panic "crypto/cipher: incorrect nonce length given to GCM".
Proof.
  intros Hrow Hn Hlen Hdec. rewrite Fetch_same, (Fetch_sealed _ _ _ _ _ _ Hrow Hn), Hdec.
  cbn [wrap mbind outcome_mbind outcome_bind]. unfold decrypt.
  rewrite aes_NewCipher_32 by apply pbkdf2_Key_length.
  unfold cipher_NewGCM. cbn [mbind outcome_mbind outcome_bind Open].
  by rewrite decide_False.
Qed.

(** ** Drop *)

Lemma Fetch_missing db K password s :
  is_Some (storage s) → record_of K s = None →
  Rev1.Fetch db K password s = Err ErrNotFound ∧
  Rev2.Fetch db K password s = Err ErrNotFound.
Proof.
  intros Htable Hrow. unfold Rev1.Fetch, Rev2.Fetch.
  by rewrite (sql_select_row_missing _ _ Htable Hrow).
Qed.

(** C7.  On a database that has the table, [Drop(K)] succeeds, also
    when [K] has no record, and then leaves the database as it is.  After
    a [Drop(K)] that succeeded, [Fetch(K, p)] fails with [ErrNotFound]
    for every password [p], nil included, and [Peek(K)] returns the
    empty string. *)
Theorem drop_then_not_found db K s :
  (is_Some (storage s) → ∃ s', Drop db K s = (Ok (), s')) ∧
  (is_Some (storage s) → record_of K s = None → Drop db K s = (Ok (), s)) ∧
  (∀ s', Drop db K s = (Ok (), s') →
     (∀ password,
        Rev1.Fetch db K password s' = Err ErrNotFound ∧
        Rev2.Fetch db K password s' = Err ErrNotFound) ∧
     Rev1.Peek db K s' = EmptyString).
Proof.
  unfold Drop, sql_delete. split; [| split].
  - intros [t ->]. by eexists.
  - intros [t Ht]. unfold record_of. rewrite Ht. cbn. intros Hrow.
    rewrite (delete_id _ _ Hrow). destruct s as [tbl rows]. cbn in *. by subst.
  - intros s'. destruct (storage s) as [t|]; [| done]. cbn. intros [= <-].
    assert (Hrow : record_of K {| storage := Some (delete K t); salt_rows := salt_rows s |}
                   = None).
    { unfold record_of. cbn. apply lookup_delete_eq. }
    split.
    + intros password. by apply Fetch_missing.
    + by rewrite Peek_record, Hrow.
Qed.

(** ** Overwriting *)

(** C8.  [Stow] on a key that has a record replaces the record as a
    whole.  After [Stow(K, V1, nil)] and then [Stow(K, V2, P)],
    [Fetch(K, P)] returns [V2]; the record had no nonce after the first
    call and has, after the second, the nonce, the value and the
    timestamp of the second call; no other record and no salt row has
    changed.  A [Stow] that does not succeed writes nothing. *)
Theorem stow_overwrites db K V1 V2 p env1 env2 s s1 s2 :
  Stow db K V1 None env1 s = (Ok (), s1) →
  Stow db K V2 (Some p) env2 s1 = (Ok (), s2) →
  (Rev1.Fetch db K (Some p) s2 = Ok V2 ∧ Rev2.Fetch db K (Some p) s2 = Ok V2) ∧
  record_of K s1 = Some {| modified := now env1; val := V1; nonce := None |} ∧
  (∃ n, io_ReadFull (rand_Reader env2) 12 = Ok n ∧
        record_of K s2 =
          Some {| modified := now env2;
                  val := b64_EncodeToString
                           (gcm_seal (pbkdf2_Key (Some p) (salt db) 4096 32)
                                     n (bytes_of_string V2) []);
                  nonce := Some n |}) ∧
  (∀ K', K' ≠ K → record_of K' s2 = record_of K' s1) ∧
  salt_rows s2 = salt_rows s1 ∧
  (∀ s0 V password env r s', Stow db K V password env s0 = (r, s') → r ≠ Ok () → s' = s0).
Proof.
  intros Hfirst Hsecond.
  pose proof (Fetch_stowed db K V2 p env2 s1 s2 Hsecond) as [Hf1 Hf2].
  apply Stow_plain_Ok in Hfirst as (t & Ht & ->).
  apply Stow_secret_Ok in Hsecond as (t1 & n & [= <-] & Hread & _ & ->).
  split; [done |]. split; [by rewrite record_of_upsert, decide_True |].
  split; [exists n; split; [done |]; by rewrite record_of_upsert, decide_True |].
  split; [| split; [done |]].
  - intros K' Hne. rewrite !record_of_upsert.
    rewrite !decide_False by done. by rewrite lookup_insert_ne.
  - intros s0 V password env r s'. apply Stow_failed.
Qed.

(** ** The salt *)



(** Opening a database without a salt row. *)
Lemma NewDepot_fresh env s :
  salt_count s = 0 →
  NewDepot env s =
  match io_ReadFull (rand_Reader env) 32 with
  | Ok fresh =>
      (Ok {| salt := fresh |},
       {| storage := match salt_rows s with
                     | None => Some (default ∅ (storage s))
                     | Some _ => storage s
                     end;
          salt_rows := Some [fresh] |})
  | Err err =>
      (Err (fmt_Errorf "cannot generate random salt" err),
       match salt_rows s with
       | None => {| storage := Some (default ∅ (storage s)); salt_rows := Some [] |}
       | Some _ => s
       end)
  | Panic m => (Panic m, s)
  end.
Proof.
  unfold salt_count, NewDepot, sql_select_salt.
  destruct s as [tbl [[|d rest]|]]; cbn; [intros _ | done | intros _].
  - destruct (io_ReadFull (rand_Reader env) 32); [done | done |].
    unfold io_ReadFull in *. by case_decide; destruct (rand_Reader env).
  - destruct (io_ReadFull (rand_Reader env) 32) eqn:Hread; [done | done |].
    unfold io_ReadFull in Hread. by case_decide; destruct (rand_Reader env).
Qed.



(** [NewDepot] is its select followed by the rest. *)
Lemma NewDepot_statements env s :
  NewDepot env s =
  match sql_select_salt s with
  | Ok stored => (Ok {| salt := stored |}, s)
  | Err err => NewDepot_after_select err env s
  | Panic m => (Panic m, s)
  end.
Proof. reflexivity. Qed.

(** Two opens whose selects both ran before either insert: each inserts
    the salt it drew. *)
Lemma opens_that_interleave env_a env_b s err :
  salt_count s = 0 → sql_select_salt s = Err err →
  32 ≤ length (rand_Reader env_a) → 32 ≤ length (rand_Reader env_b) →
  ∃ s1 s2,
    NewDepot_after_select err env_a s = (Ok {| salt := take 32 (rand_Reader env_a) |}, s1) ∧
    NewDepot_after_select err env_b s1 = (Ok {| salt := take 32 (rand_Reader env_b) |}, s2) ∧
    salt_rows s2 = Some [take 32 (rand_Reader env_a); take 32 (rand_Reader env_b)].
Proof.
  intros Hcount Hselect Ha Hb. revert Hcount Hselect.
  unfold salt_count, sql_select_salt, NewDepot_after_select.
  rewrite (proj2 (io_ReadFull_Ok _ _ _) (conj Ha eq_refl)).
  rewrite (proj2 (io_ReadFull_Ok _ _ _) (conj Hb eq_refl)).
  destruct s as [tbl [[|d rest]|]]; cbn; [| done |]; intros _ [= <-]; cbn.
  - by eexists _, _.
  - by eexists _, _.
Qed.


(** ** Nil and empty passwords *)

(** With a password at hand neither listing answers [ErrPasswordNeeded]. *)
Lemma Fetch_with_password_not_needed db K p s :
  failed_with (Rev1.Fetch db K (Some p) s) ErrPasswordNeeded = false ∧
  failed_with (Rev2.Fetch db K (Some p) s) ErrPasswordNeeded = false.
Proof.
  rewrite Fetch_same.
  cut (failed_with (Rev1.Fetch db K (Some p) s) ErrPasswordNeeded = false); [done |].
  unfold Rev1.Fetch, sql_select_row.
  destruct (storage s) as [t|]; [| done].
  destruct (t !! K) as [[m v [n|]]|]; [| done | done]. cbn [val nonce].
  destruct (b64_DecodeString v) as [valbytes|err|m'] eqn:Hdec; [| | done].
  - cbn [wrap mbind outcome_mbind outcome_bind].
    destruct (decrypt (Some p) (salt db) n valbytes) as [pt|err|m'] eqn:Hopen; [done | | done].
    apply decrypt_error in Hopen as ->. done.
  - apply b64_decode_error in Hdec as ->. done.
Qed.

(** C10.  Only the nil password selects the plaintext path.  [Stow]
    with the empty, non-nil password stores a record that holds a nonce,
    where [Stow] with nil stores one without.  On a record that holds a
    nonce, [Fetch] with the empty, non-nil password runs the decryption
    with it and does not fail with [ErrPasswordNeeded]; after that [Stow]
    it returns the value. *)
Theorem empty_password_is_a_password db K V env s :
  (∀ s', Stow db K V (Some []) env s = (Ok (), s') →
     (∃ r n, record_of K s' = Some r ∧ nonce r = Some n) ∧
     Rev1.Fetch db K (Some []) s' = Ok V ∧
     Rev2.Fetch db K (Some []) s' = Ok V) ∧
  (∀ s', Stow db K V None env s = (Ok (), s') →
     ∃ r, record_of K s' = Some r ∧ nonce r = None ∧ val r = V) ∧
  (∀ r n, record_of K s = Some r → nonce r = Some n →
     Rev2.Fetch db K (Some []) s =
       (valbytes ← wrap "cannot decrypt data" (b64_DecodeString (val r));
        plaintext ← wrap "cannot decrypt data" (decrypt (Some []) (salt db) n valbytes);
        Ok (string_of_bytes plaintext)) ∧
     failed_with (Rev2.Fetch db K (Some []) s) ErrPasswordNeeded = false).
Proof.
  split; [| split].
  - intros s' Hstow.
    pose proof (Fetch_stowed db K V [] env s s' Hstow) as [Hf1 Hf2].
    split; [| done].
    apply Stow_secret_Ok in Hstow as (t & n & _ & _ & _ & ->).
    eexists _, n. by rewrite record_of_upsert, decide_True.
  - intros s' Hstow. apply Stow_plain_Ok in Hstow as (t & _ & ->).
    eexists. by rewrite record_of_upsert, decide_True.
  - intros r n Hrow Hn. split.
    + by rewrite Fetch_same, (Fetch_sealed _ _ _ _ _ _ Hrow Hn).
    + apply Fetch_with_password_not_needed.
Qed.

End Depot.

(** ** The claims at concrete inputs *)

Lemma stow_fetch_encrypted_witness :
  let s' := snd (Stow Demo.depot "ciphertext" "testing123" (Some Demo.password)
                      (Demo.env 1) Demo.opened) in
  Rev1.Fetch Demo.depot "ciphertext" (Some Demo.password) s' = Ok "testing123" ∧
  Rev2.Fetch Demo.depot "ciphertext" (Some Demo.password) s' = Ok "testing123" ∧
  Rev1.Peek Demo.depot "ciphertext" s' = EmptyString ∧
  ("testing123" ≠ EmptyString → Rev1.Peek Demo.depot "ciphertext" s' ≠ "testing123").
Proof.
  apply (@stow_fetch_encrypted StandIn.primitives StandInFacts.laws
           Demo.depot "ciphertext" "testing123" Demo.password (Demo.env 1) Demo.opened).
  vm_compute. reflexivity.
Defined.

Lemma stow_fetch_plaintext_witness :
  let s' := snd (Stow Demo.depot "plaintext" "testing123" None (Demo.env 1) Demo.opened) in
  Rev1.Fetch Demo.depot "plaintext" None s' = Ok "testing123" ∧
  Rev2.Fetch Demo.depot "plaintext" None s' = Ok "testing123" ∧
  Rev1.Peek Demo.depot "plaintext" s' = "testing123".
Proof.
  apply (@stow_fetch_plaintext StandIn.primitives
           Demo.depot "plaintext" "testing123" (Demo.env 1) Demo.opened).
  vm_compute. reflexivity.
Defined.

Lemma fetch_needs_password_witness :
  (Rev2.Fetch Demo.depot "secret" None Demo.stocked = Err ErrPasswordNeeded ∧
   failed_with (Rev2.Fetch Demo.depot "secret" None Demo.stocked) ErrBadPassword = false ∧
   (∀ target, target ≠ ErrPasswordNeeded →
              failed_with (Rev2.Fetch Demo.depot "secret" None Demo.stocked) target = false)) ∧
  Rev1.Fetch Demo.depot "secret" None Demo.stocked
    = Err (fmt_Errorf "cannot decrypt data" ErrBadPassword) ∧
  failed_with (Rev1.Fetch Demo.depot "secret" None Demo.stocked) ErrBadPassword = true.
Proof.
  destruct (@fetch_needs_password StandIn.primitives StandInFacts.laws
              Demo.depot "secret" Demo.stocked
              (Demo.sealed_row Demo.password "testing123") (bytes_of_string "0123456789ab"))
    as [Hsecond (_ & _ & Hfirst)].
  - vm_compute. reflexivity.
  - reflexivity.
  - split; [exact Hsecond |].
    apply (Hfirst (gcm_seal (pbkdf2_Key (Some Demo.password) Demo.salt0 4096 32)
                            (bytes_of_string "0123456789ab")
                            (bytes_of_string "testing123") [])).
    + reflexivity.
    + vm_compute. reflexivity.
    + vm_compute. reflexivity.
Defined.

(** Against C3 as stated: on an encrypted record the [Fetch] of lines
    162-192, given nil, answers with [ErrBadPassword], wrapped, and not
    with [ErrPasswordNeeded]; so it does right after the [Stow] that
    encrypted the value. *)
Lemma nil_password_counterexample :
  (∃ r n, record_of "secret" Demo.stocked = Some r ∧ nonce r = Some n) ∧
  Rev1.Fetch Demo.depot "secret" None Demo.stocked
    = Err (fmt_Errorf "cannot decrypt data" ErrBadPassword) ∧
  failed_with (Rev1.Fetch Demo.depot "secret" None Demo.stocked) ErrBadPassword = true ∧
  failed_with (Rev1.Fetch Demo.depot "secret" None Demo.stocked) ErrPasswordNeeded = false ∧
  (∃ s1, Stow Demo.depot "secret" "testing123" (Some Demo.password) (Demo.env 1) Demo.opened
           = (Ok (), s1) ∧
         Rev1.Fetch Demo.depot "secret" None s1
           = Err (fmt_Errorf "cannot decrypt data" ErrBadPassword)).
Proof.
  split; [| split; [| split; [| split]]].
  - eexists _, _. vm_compute. done.
  - vm_compute. done.
  - vm_compute. done.
  - vm_compute. done.
  - eexists. split; vm_compute; reflexivity.
Qed.

Lemma peek_never_fails_witness :
  Rev1.Peek Demo.depot "plain" Demo.stocked = "testing123" ∧
  Rev1.Peek Demo.depot "absent" Demo.stocked = EmptyString ∧
  Rev1.Peek Demo.depot "secret" Demo.stocked = EmptyString.
Proof.
  split; [| split].
  - apply (proj1 (peek_never_fails Demo.depot "plain" Demo.stocked)
             {| modified := 0; val := "testing123"; nonce := None |}).
    + vm_compute. reflexivity.
    + reflexivity.
  - apply (proj1 (proj2 (peek_never_fails Demo.depot "absent" Demo.stocked))).
    vm_compute. reflexivity.
  - apply (proj1 (proj2 (proj2 (peek_never_fails Demo.depot "secret" Demo.stocked)))
             (Demo.sealed_row Demo.password "testing123") (bytes_of_string "0123456789ab")).
    + vm_compute. reflexivity.
    + reflexivity.
Defined.

Lemma fetch_with_other_password_witness :
  let s' := snd (Stow Demo.depot "ciphertext" "testing123" (Some (bytes_of_string "goodpassword"))
                      (Demo.env 1) Demo.opened) in
  failed_with (Rev1.Fetch Demo.depot "ciphertext" (Some (bytes_of_string "badpassword")) s')
              ErrBadPassword = true ∧
  failed_with (Rev2.Fetch Demo.depot "ciphertext" (Some (bytes_of_string "badpassword")) s')
              ErrBadPassword = true.
Proof.
  apply (@fetch_with_other_password StandIn.primitives StandInFacts.laws
           Demo.depot "ciphertext" "testing123"
           (bytes_of_string "goodpassword") (bytes_of_string "badpassword")
           (Demo.env 1) Demo.opened).
  - vm_compute. reflexivity.
  - vm_compute. reflexivity.
Defined.

(** Against C5 as stated: the password followed by a zero byte is another
    password, and it fetches the value. *)
Lemma wrong_password_counterexample :
  let p := Demo.password in
  let p' := Demo.password ++ [x00] in
  let s' := snd (Stow Demo.depot "ciphertext" "testing123" (Some p) (Demo.env 1) Demo.opened) in
  p' ≠ p ∧
  Stow Demo.depot "ciphertext" "testing123" (Some p) (Demo.env 1) Demo.opened = (Ok (), s') ∧
  Rev1.Fetch Demo.depot "ciphertext" (Some p') s' = Ok "testing123" ∧
  Rev2.Fetch Demo.depot "ciphertext" (Some p') s' = Ok "testing123" ∧
  failed_with (Rev1.Fetch Demo.depot "ciphertext" (Some p') s') ErrBadPassword = false ∧
  failed_with (Rev2.Fetch Demo.depot "ciphertext" (Some p') s') ErrBadPassword = false.
Proof.
  cbv zeta. split; [discriminate |]. split; [vm_compute; reflexivity |].
  assert (Hfetch :
    Rev1.Fetch Demo.depot "ciphertext" (Some (Demo.password ++ [x00]))
      (snd (Stow Demo.depot "ciphertext" "testing123" (Some Demo.password)
                 (Demo.env 1) Demo.opened)) = Ok "testing123" ∧
    Rev2.Fetch Demo.depot "ciphertext" (Some (Demo.password ++ [x00]))
      (snd (Stow Demo.depot "ciphertext" "testing123" (Some Demo.password)
                 (Demo.env 1) Demo.opened)) = Ok "testing123").
  { apply (@zero_padded_password_fetches StandIn.primitives StandInFacts.laws
             Demo.depot "ciphertext" "testing123" Demo.password (Demo.env 1) Demo.opened).
    - vm_compute. reflexivity.
    - vm_compute. lia. }
  destruct Hfetch as [-> ->]. done.
Qed.

Lemma fetch_damaged_record_witness :
  failed_with (Rev1.Fetch Demo.depot "secret" (Some (bytes_of_string "badpassword")) Demo.stocked)
              ErrBadPassword = true ∧
  Rev1.Fetch Demo.depot "secret" (Some Demo.password) Demo.stocked = Ok "testing123".
Proof.
  pose proof (@fetch_damaged_record StandIn.primitives StandInFacts.laws Demo.depot "secret"
                (bytes_of_string "badpassword") Demo.stocked
                (Demo.sealed_row Demo.password "testing123") (bytes_of_string "0123456789ab")
                eq_refl eq_refl eq_refl) as [Hbad _].
  pose proof (@fetch_damaged_record StandIn.primitives StandInFacts.laws Demo.depot "secret"
                Demo.password Demo.stocked
                (Demo.sealed_row Demo.password "testing123") (bytes_of_string "0123456789ab")
                eq_refl eq_refl eq_refl) as [Hgood _].
  split.
  - destruct (Hbad _ eq_refl) as [Hnone _]. destruct (Hnone eq_refl) as [-> _].
    reflexivity.
  - destruct (Hgood _ eq_refl) as [_ Hsome].
    destruct (Hsome (bytes_of_string "testing123") eq_refl) as [-> _]. reflexivity.
Defined.

(** Against C6 as stated: an encrypted record whose stored value is no
    longer base64 is reported with the decoder's error, not with
    [ErrBadPassword]. *)
Lemma damaged_value_counterexample :
  (∃ r n, record_of "damaged" Demo.stocked = Some r ∧ nonce r = Some n ∧ length n = 12) ∧
  Rev1.Fetch Demo.depot "damaged" (Some Demo.password) Demo.stocked
    = Err (fmt_Errorf "cannot decrypt data" base64_CorruptInputError) ∧
  Rev2.Fetch Demo.depot "damaged" (Some Demo.password) Demo.stocked
    = Err (fmt_Errorf "cannot decrypt data" base64_CorruptInputError) ∧
  failed_with (Rev1.Fetch Demo.depot "damaged" (Some Demo.password) Demo.stocked)
              ErrBadPassword = false ∧
  failed_with (Rev2.Fetch Demo.depot "damaged" (Some Demo.password) Demo.stocked)
              ErrBadPassword = false.
Proof.
  split.
  - eexists _, _. vm_compute. done.
  - vm_compute. done.
Qed.

Lemma drop_then_not_found_witness :
  Drop Demo.depot "absent" Demo.stocked = (Ok (), Demo.stocked) ∧
  (∀ password,
     Rev1.Fetch Demo.depot "plain" password (snd (Drop Demo.depot "plain" Demo.stocked))
       = Err ErrNotFound ∧
     Rev2.Fetch Demo.depot "plain" password (snd (Drop Demo.depot "plain" Demo.stocked))
       = Err ErrNotFound) ∧
  Rev1.Peek Demo.depot "plain" (snd (Drop Demo.depot "plain" Demo.stocked)) = EmptyString.
Proof.
  split.
  - apply (proj1 (proj2 (@drop_then_not_found StandIn.primitives
                           Demo.depot "absent" Demo.stocked))).
    + eexists. reflexivity.
    + vm_compute. reflexivity.
  - apply (proj2 (proj2 (@drop_then_not_found StandIn.primitives
                           Demo.depot "plain" Demo.stocked))).
    vm_compute. reflexivity.
Defined.

Lemma stow_overwrites_witness :
  let s1 := snd (Stow Demo.depot "key" "first" None (Demo.env 1) Demo.opened) in
  let s2 := snd (Stow Demo.depot "key" "second" (Some Demo.password) (Demo.env 2) s1) in
  (Rev1.Fetch Demo.depot "key" (Some Demo.password) s2 = Ok "second" ∧
   Rev2.Fetch Demo.depot "key" (Some Demo.password) s2 = Ok "second") ∧
  record_of "key" s1 = Some {| modified := 1; val := "first"; nonce := None |}.
Proof.
  cbv zeta.
  pose proof (@stow_overwrites StandIn.primitives StandInFacts.laws
                Demo.depot "key" "first" "second" Demo.password (Demo.env 1) (Demo.env 2)
                Demo.opened
                (snd (Stow Demo.depot "key" "first" None (Demo.env 1) Demo.opened))
                (snd (Stow Demo.depot "key" "second" (Some Demo.password) (Demo.env 2)
                           (snd (Stow Demo.depot "key" "first" None (Demo.env 1) Demo.opened)))))
    as Hall.
  destruct Hall as (Hfetch & Hfirst & _).
  - vm_compute. reflexivity.
  - vm_compute. reflexivity.
  - split; [exact Hfetch | exact Hfirst].
Defined.



Lemma empty_password_is_a_password_witness :
  let s' := snd (Stow Demo.depot "key" "testing123" (Some []) (Demo.env 1) Demo.opened) in
  (∃ r n, record_of "key" s' = Some r ∧ nonce r = Some n) ∧
  Rev1.Fetch Demo.depot "key" (Some []) s' = Ok "testing123" ∧
  Rev2.Fetch Demo.depot "key" (Some []) s' = Ok "testing123".
Proof.
  apply (proj1 (@empty_password_is_a_password StandIn.primitives StandInFacts.laws
                  Demo.depot "key" "testing123" (Demo.env 1) Demo.opened)).
  vm_compute. reflexivity.
Defined.

(** * More of the package *)

Section Package.
Context `{P : Primitives} {L : Laws P}.

(** ** The constraint on nonces *)

Lemma nonce_in_use_true key n t :
  nonce_in_use key n t = true ↔
  ∃ k r, t !! k = Some r ∧ k ≠ key ∧ nonce r = n ∧ is_Some n.
Proof.
  unfold nonce_in_use. destruct n as [n|].
  - rewrite bool_decide_eq_true, map_Exists_lookup. split.
    + intros (k & r & Hk & Hne & Hn). exists k, r. eauto.
    + intros (k & r & Hk & Hne & Hn & _). exists k, r. eauto.
  - split; [done |]. by intros (k & r & _ & _ & _ & [x [=]]).
Qed.

Lemma nonce_in_use_false key n t :
  nonce_in_use key (Some n) t = false ↔
  ∀ k r, t !! k = Some r → nonce r = Some n → k = key.
Proof.
  rewrite <- not_true_iff_false, nonce_in_use_true. split.
  - intros Hfree k r Hk Hn. destruct (decide (k = key)) as [|Hne]; [done |].
    exfalso. apply Hfree. exists k, r. eauto.
  - intros Hfree (k & r & Hk & Hne & Hn & _). by apply Hne, (Hfree k r).
Qed.

(** The row under the key itself does not count. *)
Lemma nonce_in_use_insert key n r t :
  nonce_in_use key n (<[key := r]> t) = nonce_in_use key n t.
Proof.
  apply eq_true_iff_eq. rewrite !nonce_in_use_true. split.
  - intros (k & r' & Hk & Hne & Hn). exists k, r'.
    by rewrite lookup_insert_ne in Hk.
  - intros (k & r' & Hk & Hne & Hn). exists k, r'.
    by rewrite lookup_insert_ne.
Qed.

Lemma Database_eta s : {| storage := storage s; salt_rows := salt_rows s |} = s.
Proof. by destruct s. Qed.

(** What a call reads of the table is the row under its key. *)
Lemma sql_select_row_ext key s1 s2 :
  (is_Some (storage s1) ↔ is_Some (storage s2)) →
  record_of key s1 = record_of key s2 →
  sql_select_row key s1 = sql_select_row key s2.
Proof.
  unfold record_of, sql_select_row. intros Htable.
  destruct (storage s1) as [t1|], (storage s2) as [t2|]; cbn.
  - by intros ->.
  - destruct Htable as [[x [=]] _]. by eexists.
  - destruct Htable as [_ [x [=]]]. by eexists.
  - done.
Qed.

Lemma reads_ext db key password s1 s2 :
  sql_select_row key s1 = sql_select_row key s2 →
  Rev1.Fetch db key password s1 = Rev1.Fetch db key password s2 ∧
  Rev2.Fetch db key password s1 = Rev2.Fetch db key password s2 ∧
  Rev1.Peek db key s1 = Rev1.Peek db key s2.
Proof. intros Hrow. unfold Rev1.Fetch, Rev2.Fetch, Rev1.Peek. by rewrite Hrow. Qed.

(** ** encrypt and decrypt *)

(** X1.  What [encrypt] returns, [decrypt] opens: for the same password
    and salt, the nonce and ciphertext of a successful [encrypt] decrypt
    to the data that went in.  The nonce is the next 12 bytes of the
    random source. *)
Theorem encrypt_then_decrypt rand password salt data sealed n :
  encrypt rand password salt data = Ok (sealed, n) →
  n = take 12 rand ∧ length n = 12 ∧ decrypt password salt n sealed = Ok data.
Proof.
  rewrite encrypt_eq.
  destruct (io_ReadFull rand 12) as [n'| |] eqn:Hread; [| done | done].
  intros [= <- <-]. pose proof (io_ReadFull_length _ _ _ Hread) as Hlen.
  apply io_ReadFull_Ok in Hread as [_ Hn]. split; [done |]. split; [done |].
  rewrite decrypt_eq by done.
  by rewrite gcm_open_seal by (apply pbkdf2_Key_length || done).
Qed.

(** X2.  [encrypt] fails only for want of random bytes: with 12 or more
    it succeeds, whatever the password, salt and data; with none it
    returns [io.EOF], with fewer than 12 [io.ErrUnexpectedEOF], both
    unwrapped.  It never fails on the key and never panics. *)
Theorem encrypt_needs_twelve_random_bytes rand password salt data :
  (12 ≤ length rand →
     ∃ sealed, encrypt rand password salt data = Ok (sealed, take 12 rand)) ∧
  (rand = [] → encrypt rand password salt data = Err io_EOF) ∧
  (0 < length rand < 12 → encrypt rand password salt data = Err io_ErrUnexpectedEOF).
Proof.
  rewrite encrypt_eq. unfold io_ReadFull. split; [| split].
  - intros Hlen. rewrite decide_True by done. by eexists.
  - by intros ->.
  - intros [Hpos Hlen]. rewrite decide_False by lia.
    destruct rand; [cbn in Hpos; lia | done].
Qed.

(** X3.  [decrypt] has one error, [ErrBadPassword]: the error of the
    cipher is never passed on, and the key derived from the password
    always has a size AES accepts.  On a nonce of 12 bytes it returns the
    plaintext or that error; on a nonce of any other length it panics.
    A nil password decrypts like the empty one. *)
Theorem decrypt_outcomes password salt n data :
  (∀ err, decrypt password salt n data = Err err → err = ErrBadPassword) ∧
  (length n = 12 →
     (∃ plaintext, decrypt password salt n data = Ok plaintext) ∨
     decrypt password salt n data = Err ErrBadPassword) ∧
  (length n ≠ 12 →
     decrypt password salt n data
     = Panic "crypto/cipher: incorrect nonce length given to GCM") ∧
  decrypt None salt n data = decrypt (Some []) salt n data.
Proof.
  split; [apply decrypt_error |]. split; [| split].
  - intros Hlen. rewrite decrypt_eq by done.
    destruct (gcm_open _ _ _ _); [left; by eexists | by right].
  - intros Hlen. unfold decrypt.
    rewrite aes_NewCipher_32 by apply pbkdf2_Key_length.
    unfold cipher_NewGCM. cbn [mbind outcome_mbind outcome_bind Open].
    by rewrite decide_False.
  - done.
Qed.

(** ** When Stow succeeds and how it fails *)

(** X4.  [Stow] without a password succeeds exactly when the table
    exists.  [Stow] with a password succeeds exactly when the table
    exists, the random source has 12 bytes left, and no record under
    another key holds those 12 bytes as its nonce; a record under the
    same key may. *)
Theorem stow_succeeds_exactly_when db K V p env s :
  ((∃ s', Stow db K V None env s = (Ok (), s')) ↔ is_Some (storage s)) ∧
  ((∃ s', Stow db K V (Some p) env s = (Ok (), s')) ↔
   ∃ t, storage s = Some t ∧ 12 ≤ length (rand_Reader env) ∧
        ∀ K' r, t !! K' = Some r → nonce r = Some (take 12 (rand_Reader env)) → K' = K).
Proof.
  split.
  - split.
    + intros [s' Hstow]. apply Stow_plain_Ok in Hstow as (t & -> & _). by eexists.
    + intros [t Ht]. rewrite (Stow_plain_succeeds db K V env s t Ht). by eexists.
  - split.
    + intros [s' Hstow]. apply Stow_secret_Ok in Hstow as (t & n & Ht & Hread & Hfree & _).
      apply io_ReadFull_Ok in Hread as [Hlen ->].
      exists t. split; [done |]. split; [done |]. by apply nonce_in_use_false.
    + intros (t & Ht & Hlen & Hfree).
      apply (Stow_secret_succeeds db K V p env s t Ht Hlen).
      by apply nonce_in_use_false.
Qed.

(** X5.  The ways [Stow] fails, none of which writes anything.  Without
    12 random bytes: "cannot encrypt data" around [io.EOF] or
    [io.ErrUnexpectedEOF], before the database is touched.  Without the
    table: "cannot access database".  When a record under another key
    holds the fresh nonce: "cannot access database" around the
    constraint error of the store. *)
Theorem stow_failures db K V p env s :
  (length (rand_Reader env) < 12 →
     ∃ e, Stow db K V (Some p) env s = (Err (fmt_Errorf "cannot encrypt data" e), s) ∧
          (e = io_EOF ∨ e = io_ErrUnexpectedEOF)) ∧
  (storage s = None →
     Stow db K V None env s
     = (Err (fmt_Errorf "cannot access database" (sqlite3_Error "no such table: storage")), s) ∧
     (12 ≤ length (rand_Reader env) →
      Stow db K V (Some p) env s
      = (Err (fmt_Errorf "cannot access database" (sqlite3_Error "no such table: storage")), s))) ∧
  (∀ t K' r, storage s = Some t → 12 ≤ length (rand_Reader env) →
     t !! K' = Some r → K' ≠ K → nonce r = Some (take 12 (rand_Reader env)) →
     Stow db K V (Some p) env s
     = (Err (fmt_Errorf "cannot access database"
               (sqlite3_Error "UNIQUE constraint failed: storage.nonce")), s)).
Proof.
  split; [| split].
  - intros Hlen. unfold Stow. rewrite encrypt_eq. unfold io_ReadFull.
    rewrite decide_False by lia.
    destruct (rand_Reader env); eexists; split; eauto.
  - intros Ht. split.
    + unfold Stow, sql_upsert. by rewrite Ht.
    + intros Hlen. unfold Stow. rewrite encrypt_eq.
      rewrite (proj2 (io_ReadFull_Ok _ _ _) (conj Hlen eq_refl)).
      unfold sql_upsert. by rewrite Ht.
  - intros t K' r Ht Hlen HK' Hne Hn. unfold Stow. rewrite encrypt_eq.
    rewrite (proj2 (io_ReadFull_Ok _ _ _) (conj Hlen eq_refl)).
    unfold sql_upsert. rewrite Ht.
    rewrite (proj2 (nonce_in_use_true K (Some (take 12 (rand_Reader env))) t)); [done |].
    exists K', r. eauto.
Qed.

(** ** Other keys *)

Lemma Stow_Ok_shape db K V password env s s' :
  Stow db K V password env s = (Ok (), s') →
  ∃ t r, storage s = Some t ∧
         s' = {| storage := Some (<[K := r]> t); salt_rows := salt_rows s |}.
Proof.
  destruct password as [p|]; intros Hstow.
  - apply Stow_secret_Ok in Hstow as (t & n & Ht & _ & _ & ->). by eexists t, _.
  - apply Stow_plain_Ok in Hstow as (t & Ht & ->). by eexists t, _.
Qed.

Lemma Stow_other_row db K V password env s r s' K' :
  Stow db K V password env s = (r, s') → K' ≠ K →
  sql_select_row K' s' = sql_select_row K' s.
Proof.
  intros Hstow Hne. destruct r as [[]|err|m].
  - apply Stow_Ok_shape in Hstow as (t & row & Ht & ->).
    unfold sql_select_row. cbn. by rewrite Ht, lookup_insert_ne.
  - by rewrite (Stow_failed _ _ _ _ _ _ _ _ Hstow).
  - by rewrite (Stow_failed _ _ _ _ _ _ _ _ Hstow).
Qed.

(** X6.  [Stow] on one key leaves every other key as it was: whatever
    the outcome of the [Stow], [Fetch] (with any password, through any
    depot) and [Peek] of another key return afterwards what they returned
    before. *)
Theorem stow_leaves_other_keys db K V password env s r s' :
  Stow db K V password env s = (r, s') →
  ∀ db' K' password', K' ≠ K →
    Rev1.Fetch db' K' password' s' = Rev1.Fetch db' K' password' s ∧
    Rev2.Fetch db' K' password' s' = Rev2.Fetch db' K' password' s ∧
    Rev1.Peek db' K' s' = Rev1.Peek db' K' s.
Proof.
  intros Hstow db' K' password' Hne.
  apply reads_ext. by apply (Stow_other_row db K V password env s r s').
Qed.

(** X7.  [Drop] of one key leaves every other key as it was, and leaves
    the salt alone. *)
Theorem drop_leaves_other_keys db K s r s' :
  Drop db K s = (r, s') →
  salt_rows s' = salt_rows s ∧
  ∀ db' K' password', K' ≠ K →
    Rev1.Fetch db' K' password' s' = Rev1.Fetch db' K' password' s ∧
    Rev2.Fetch db' K' password' s' = Rev2.Fetch db' K' password' s ∧
    Rev1.Peek db' K' s' = Rev1.Peek db' K' s.
Proof.
  unfold Drop, sql_delete. destruct (storage s) as [t|] eqn:Ht.
  - intros [= <- <-]. split; [done |]. intros db' K' password' Hne.
    apply reads_ext. unfold sql_select_row. cbn. by rewrite Ht, lookup_delete_ne.
  - intros [= <- <-]. done.
Qed.

(** ** Peek before Fetch *)

(** X8.  [Peek] answers with a non-empty string exactly for a record
    without nonce whose value is not empty, and then [Fetch] returns that
    same string for every password, nil included.  A record without
    nonce whose value is the empty string looks to [Peek] like a missing
    or an encrypted one, while [Fetch] returns its empty value. *)
Theorem peek_agrees_with_fetch db K s :
  (Rev1.Peek db K s ≠ EmptyString ↔
   ∃ r, record_of K s = Some r ∧ nonce r = None ∧ val r ≠ EmptyString) ∧
  (Rev1.Peek db K s ≠ EmptyString →
   ∀ password,
     Rev1.Fetch db K password s = Ok (Rev1.Peek db K s) ∧
     Rev2.Fetch db K password s = Ok (Rev1.Peek db K s)) ∧
  (∀ r, record_of K s = Some r → nonce r = None → val r = EmptyString →
     Rev1.Peek db K s = EmptyString ∧
     ∀ password,
       Rev1.Fetch db K password s = Ok EmptyString ∧
       Rev2.Fetch db K password s = Ok EmptyString).
Proof.
  rewrite Peek_record. split; [| split].
  - destruct (record_of K s) as [r|]; [| split; [done | by intros (r & [=] & _)]].
    destruct (nonce r) as [n|] eqn:Hn.
    + split; [done |]. intros (r' & [= <-] & Hn' & _). congruence.
    + split; [intros Hv; by exists r | by intros (r' & [= <-] & _ & Hv)].
  - destruct (record_of K s) as [r|] eqn:Hrow; [| done].
    destruct (nonce r) as [n|] eqn:Hn; [done |].
    intros _ password. by apply Fetch_plain.
  - intros r Hrow Hn Hv. rewrite Hrow, Hn. split; [done |].
    intros password. rewrite <- Hv. by apply Fetch_plain.
Qed.

(** ** Stow and Drop in sequence *)

(** X9.  The last [Stow] of a key wins: after a successful [Stow] of
    [K], a further [Stow] of [K] has the outcome it would have had
    without the first, and when it succeeds the database is the one it
    would have produced without the first. *)
Theorem last_stow_wins db K V1 V2 password1 password2 env1 env2 s s1 :
  Stow db K V1 password1 env1 s = (Ok (), s1) →
  fst (Stow db K V2 password2 env2 s1) = fst (Stow db K V2 password2 env2 s) ∧
  (fst (Stow db K V2 password2 env2 s) = Ok () →
   snd (Stow db K V2 password2 env2 s1) = snd (Stow db K V2 password2 env2 s)).
Proof.
  intros Hfirst. apply Stow_Ok_shape in Hfirst as (t & r1 & Ht & ->).
  assert (Hup : ∀ clock v n,
    fst (sql_upsert clock K v n
           {| storage := Some (<[K := r1]> t); salt_rows := salt_rows s |})
      = fst (sql_upsert clock K v n s) ∧
    (fst (sql_upsert clock K v n s) = Ok () →
     snd (sql_upsert clock K v n
            {| storage := Some (<[K := r1]> t); salt_rows := salt_rows s |})
       = snd (sql_upsert clock K v n s))).
  { intros clock v n. unfold sql_upsert. cbn [storage salt_rows].
    rewrite Ht, nonce_in_use_insert.
    destruct (nonce_in_use K n t); cbn; [done |].
    by rewrite insert_insert_eq. }
  unfold Stow. destruct password2 as [p2|].
  - cbn [salt]. destruct (encrypt _ _ _ _) as [[sealed n]| |]; [| done | done].
    destruct (Hup (now env2) (b64_EncodeToString sealed) (Some n)) as [Hfst Hsnd].
    destruct (sql_upsert _ _ _ _ {| storage := _; salt_rows := _ |}) as [ra sa].
    destruct (sql_upsert _ _ _ _ s) as [rb sb]. cbn in *. subst ra.
    split; [done |]. intros Hok. apply Hsnd. by apply wrap_Ok in Hok.
  - destruct (Hup (now env2) V2 None) as [Hfst Hsnd].
    destruct (sql_upsert _ _ _ _ {| storage := _; salt_rows := _ |}) as [ra sa].
    destruct (sql_upsert _ _ _ _ s) as [rb sb]. cbn in *. subst ra.
    split; [done |]. intros Hok. apply Hsnd. by apply wrap_Ok in Hok.
Qed.

(** X10.  [Drop] undoes [Stow]: after a successful [Stow] of [K],
    [Drop(K)] has the result it would have had before the [Stow], and
    when [K] had no record before, the database is back to what it was. *)
Theorem drop_undoes_stow db K V password env s s1 :
  Stow db K V password env s = (Ok (), s1) →
  Drop db K s1 = Drop db K s ∧
  (record_of K s = None → Drop db K s1 = (Ok (), s)).
Proof.
  intros Hstow. apply Stow_Ok_shape in Hstow as (t & r & Ht & ->).
  unfold Drop, sql_delete, record_of. cbn [storage salt_rows]. rewrite Ht. cbn.
  rewrite delete_insert_eq. split; [done |].
  intros Hrow. rewrite (delete_id _ _ Hrow), <- Ht. by rewrite Database_eta.
Qed.

(** ** The two listings of Fetch *)

(** X11.  The first listing makes no difference between the nil and the
    empty password, on any database.  The second listing agrees with the
    first except for a nil password on a record that holds a nonce.  So
    a value stowed under the empty password is fetched with nil by the
    first listing and refused with [ErrPasswordNeeded] by the second. *)
Theorem listings_differ_on_nil_password db K s :
  Rev1.Fetch db K None s = Rev1.Fetch db K (Some []) s ∧
  (∀ password,
     is_Some password ∨ (∀ r, record_of K s = Some r → nonce r = None) →
     Rev2.Fetch db K password s = Rev1.Fetch db K password s) ∧
  (∀ V env s0,
     Stow db K V (Some []) env s0 = (Ok (), s) →
     Rev1.Fetch db K None s = Ok V ∧ Rev2.Fetch db K None s = Err ErrPasswordNeeded).
Proof.
  split; [| split].
  - unfold Rev1.Fetch. destruct (sql_select_row K s) as [[v [n|]]| |]; done.
  - intros password [[p ->] | Hplain]; [apply Fetch_same |].
    unfold Rev1.Fetch, Rev2.Fetch, record_of, sql_select_row in *.
    destruct (storage s) as [t|]; [| done]. cbn in Hplain.
    destruct (t !! K) as [r|]; [| done].
    by rewrite (Hplain r eq_refl).
  - intros V env s0 Hstow.
    assert (Hnil : Rev1.Fetch db K None s = Rev1.Fetch db K (Some []) s).
    { unfold Rev1.Fetch. destruct (sql_select_row K s) as [[v [n|]]| |]; done. }
    rewrite Hnil. destruct (Fetch_stowed db K V [] env s0 s Hstow) as [-> _].
    split; [done |].
    apply Stow_secret_Ok in Hstow as (t & n & _ & _ & _ & ->).
    unfold Rev2.Fetch, sql_select_row. cbn. by rewrite lookup_insert_eq.
Qed.

(** ** Databases the package produces *)

Lemma NewDepot_storage env s :
  storage (snd (NewDepot env s)) = storage s ∨
  (storage s = None ∧ salt_rows s = None ∧ storage (snd (NewDepot env s)) = Some ∅).
Proof.
  unfold NewDepot, sql_select_salt.
  destruct s as [tbl [[|d rest]|]]; cbn.
  - rewrite decide_True by done. cbn.
    destruct (io_ReadFull (rand_Reader env) 32); cbn; by left.
  - by left.
  - rewrite decide_False by done. cbn.
    destruct tbl as [t|]; destruct (io_ReadFull (rand_Reader env) 32); cbn;
      (by left) || (by right).
Qed.

Lemma NewDepot_record env s key :
  record_of key (snd (NewDepot env s)) = record_of key s.
Proof.
  unfold record_of.
  destruct (NewDepot_storage env s) as [-> | (Hs & _ & ->)]; [done |].
  by rewrite Hs.
Qed.

Lemma Drop_record db K s key :
  record_of key (snd (Drop db K s)) = if decide (K = key) then None else record_of key s.
Proof.
  unfold Drop, sql_delete, record_of. destruct (storage s) as [t|] eqn:Ht; cbn.
  - apply lookup_delete.
  - rewrite Ht. by case_decide.
Qed.

Lemma Stow_record db K V password env s key :
  key ≠ K → record_of key (snd (Stow db K V password env s)) = record_of key s.
Proof.
  intros Hne. destruct (Stow db K V password env s) as [r s'] eqn:Hstow. cbn.
  destruct r as [[]|err|m].
  - apply Stow_Ok_shape in Hstow as (t & row & Ht & ->).
    unfold record_of. cbn. by rewrite Ht, lookup_insert_ne.
  - by rewrite (Stow_failed _ _ _ _ _ _ _ _ Hstow).
  - by rewrite (Stow_failed _ _ _ _ _ _ _ _ Hstow).
Qed.

(** The row a [Stow] leaves under its own key. *)
Lemma Stow_own_record db K V password env s r :
  record_of K (snd (Stow db K V password env s)) = Some r →
  record_of K s = Some r ∨
  (nonce r = None ∧ val r = V) ∨
  (∃ n sealed, nonce r = Some n ∧ length n = 12 ∧ val r = b64_EncodeToString sealed ∧
               ∀ k row, record_of k s = Some row → nonce row = Some n → k = K).
Proof.
  destruct (Stow db K V password env s) as [res s'] eqn:Hstow. cbn.
  destruct res as [[]|err|m].
  - destruct password as [p|].
    + apply Stow_secret_Ok in Hstow as (t & n & Ht & Hread & Hfree & ->).
      rewrite record_of_upsert, decide_True by done. intros [= <-].
      right. right. exists n, (gcm_seal (pbkdf2_Key (Some p) (salt db) 4096 32)
                                 n (bytes_of_string V) []).
      split; [done |]. split; [by apply io_ReadFull_length in Hread |].
      split; [done |]. intros k row. unfold record_of. rewrite Ht. cbn.
      intros Hk Hn. by apply (proj1 (nonce_in_use_false K n t) Hfree k row).
    + apply Stow_plain_Ok in Hstow as (t & Ht & ->).
      rewrite record_of_upsert, decide_True by done. intros [= <-].
      right. by left.
  - rewrite (Stow_failed _ _ _ _ _ _ _ _ Hstow) by done. by left.
  - rewrite (Stow_failed _ _ _ _ _ _ _ _ Hstow) by done. by left.
Qed.

Lemma reachable_rows_ok s :
  reachable s → ∀ key r, record_of key s = Some r → row_ok r = true.
Proof.
  induction 1 as [| env s _ IH | db K V password env s _ IH | db K s _ IH]; intros key r.
  - done.
  - rewrite NewDepot_record. apply IH.
  - destruct (decide (key = K)) as [-> | Hne].
    + intros Hrow. apply Stow_own_record in Hrow as [Hold | [[Hn _] | Hnew]].
      * by apply (IH K).
      * unfold row_ok. by rewrite Hn.
      * destruct Hnew as (n & sealed & Hn & Hlen & Hv & _).
        unfold row_ok. rewrite Hn, Hv, b64_decode_encode.
        by rewrite bool_decide_eq_true_2.
    + rewrite Stow_record by done. apply IH.
  - rewrite Drop_record. case_decide; [done | apply IH].
Qed.

(** X12.  On every database the package has produced, [Fetch] neither
    panics nor meets a value it cannot decode: for any key and password
    it returns a value, [ErrNotFound], [ErrPasswordNeeded] (second
    listing), "cannot decrypt data" around [ErrBadPassword], or, before
    the tables exist, "cannot access database". *)
Theorem fetch_is_regular_on_reachable s :
  reachable s →
  ∀ db K password,
    regular_result (Rev1.Fetch db K password s) = true ∧
    regular_result (Rev2.Fetch db K password s) = true.
Proof.
  intros Hreach db K password.
  pose proof (reachable_rows_ok s Hreach K) as Hok.
  unfold Rev1.Fetch, Rev2.Fetch, record_of, sql_select_row in *.
  destruct (storage s) as [t|]; [| done]. cbn in Hok.
  destruct (t !! K) as [r|]; [| done].
  specialize (Hok r eq_refl). unfold row_ok in Hok.
  destruct (nonce r) as [n|]; [| done].
  apply andb_prop in Hok as [Hlen Hdec]. apply bool_decide_eq_true in Hlen.
  destruct (b64_DecodeString (val r)) as [sealed| |]; [| done | done].
  cbn [wrap mbind outcome_mbind outcome_bind].
  assert (Hopen : regular_result
            (wrap "cannot decrypt data" (decrypt password (salt db) n sealed)
             ≫= λ plaintext, Ok (string_of_bytes plaintext)) = true).
  { rewrite decrypt_eq by done. by destruct (gcm_open _ _ _ _). }
  split; [done |]. by destruct password.
Qed.

(** X13.  On every database the package has produced, no two records
    hold the same nonce. *)
Theorem nonces_are_unique_on_reachable s :
  reachable s →
  ∀ K1 K2 r1 r2 n,
    record_of K1 s = Some r1 → record_of K2 s = Some r2 →
    nonce r1 = Some n → nonce r2 = Some n → K1 = K2.
Proof.
  induction 1 as [| env s _ IH | db K V password env s _ IH | db K s _ IH];
    intros K1 K2 r1 r2 n.
  - done.
  - rewrite !NewDepot_record. apply IH.
  - destruct (decide (K1 = K)) as [-> | Hne1], (decide (K2 = K)) as [-> | Hne2];
      [done | | |].
    + rewrite (Stow_record _ _ _ _ _ _ K2) by done.
      intros H1 H2 Hn1 Hn2.
      apply Stow_own_record in H1 as [Hold | [[Hnil _] | Hnew]].
      * by apply (IH K K2 r1 r2 n).
      * congruence.
      * destruct Hnew as (n' & _ & Hn' & _ & _ & Hfree).
        symmetry. apply (Hfree K2 r2 H2). congruence.
    + rewrite (Stow_record _ _ _ _ _ _ K1) by done.
      intros H1 H2 Hn1 Hn2.
      apply Stow_own_record in H2 as [Hold | [[Hnil _] | Hnew]].
      * by apply (IH K1 K r1 r2 n).
      * congruence.
      * destruct Hnew as (n' & _ & Hn' & _ & _ & Hfree).
        apply (Hfree K1 r1 H1). congruence.
    + rewrite !Stow_record by done. apply IH.
  - rewrite !Drop_record. repeat case_decide; try done. apply IH.
Qed.



(** X15.  [NewDepot] on a file without tables and with fewer than 32
    random bytes fails with "cannot generate random salt" around
    [io.EOF] or [io.ErrUnexpectedEOF]; the tables are created all the
    same and hold no row.  A later [NewDepot] with 32 random bytes
    succeeds on what the failed one left and stores them as the salt. *)
Theorem newdepot_fails_then_recovers env env' s :
  salt_rows s = None →
  length (rand_Reader env) < 32 → 32 ≤ length (rand_Reader env') →
  ∃ e s1,
    NewDepot env s = (Err (fmt_Errorf "cannot generate random salt" e), s1) ∧
    (e = io_EOF ∨ e = io_ErrUnexpectedEOF) ∧
    storage s1 = Some (default ∅ (storage s)) ∧ salt_rows s1 = Some [] ∧
    NewDepot env' s1 =
      (Ok {| salt := take 32 (rand_Reader env') |},
       {| storage := storage s1; salt_rows := Some [take 32 (rand_Reader env')] |}).
Proof.
  intros Hrows Hshort Hlong.
  rewrite (NewDepot_fresh env s) by (unfold salt_count; by rewrite Hrows).
  rewrite Hrows. unfold io_ReadFull at 1. rewrite decide_False by lia.
  exists (match rand_Reader env with [] => io_EOF | _ => io_ErrUnexpectedEOF end).
  eexists. split; [by destruct (rand_Reader env) |].
  split; [destruct (rand_Reader env); eauto |]. split; [done |]. split; [done |].
  rewrite NewDepot_fresh by done. cbn [salt_rows storage].
  by rewrite (proj2 (io_ReadFull_Ok _ _ _) (conj Hlong eq_refl)).
Qed.

End Package.

(** * The command line *)

Module CliFacts.
Import Cli.

Lemma parseArgs_from_cons a rest st :
  parseArgs_from (a :: rest) st =
  if help_word a
  then ({| action := actHelp; key := key st;
           secret := secret st; newline := newline st |}, None)
  else if is_option a then
    parseArgs_from rest
      {| action := action st; key := key st;
         secret := secret st || strings_Contains a "s";
         newline := negb (negb (newline st) || strings_Contains a "n") |}
  else if bool_decide (action st = "") then
    parseArgs_from rest
      {| action := a; key := key st; secret := secret st; newline := newline st |}
  else if bool_decide (key st = "") then
    parseArgs_from rest
      {| action := action st; key := a; secret := secret st; newline := newline st |}
  else (st, Some "one key at a time").
Proof. reflexivity. Qed.

Lemma positionals_cons a rest :
  positionals (a :: rest) = if is_option a then positionals rest else a :: positionals rest.
Proof. unfold positionals. cbn. by destruct (is_option a). Qed.

Lemma option_letter_cons letter a rest :
  option_letter letter (a :: rest) =
  (is_option a && strings_Contains a letter) || option_letter letter rest.
Proof. reflexivity. Qed.

(** Both places taken: options are still read, a further word is one
    too many. *)
Lemma parseArgs_from_full args st :
  action st ≠ "" → key st ≠ "" →
  Forall (λ a, help_word a = false) args →
  match positionals args with
  | [] =>
      parseArgs_from args st =
      ({| action := action st; key := key st;
          secret := secret st || option_letter "s" args;
          newline := newline st && negb (option_letter "n" args) |}, None)
  | _ :: _ =>
      snd (parseArgs_from args st) = Some "one key at a time" ∧
      action (fst (parseArgs_from args st)) = action st ∧
      key (fst (parseArgs_from args st)) = key st
  end.
Proof.
  intros Ha Hk Hargs. revert st Ha Hk.
  induction Hargs as [|a rest Hhelp _ IH]; intros st Ha Hk.
  - cbn. rewrite !bool_decide_eq_false_2 by done.
    destruct st as [act k sec nl]. cbn. by rewrite orb_false_r, andb_true_r.
  - rewrite parseArgs_from_cons, positionals_cons, !option_letter_cons, Hhelp.
    destruct (is_option a) eqn:Hopt.
    + specialize (IH {| action := action st; key := key st;
                        secret := secret st || strings_Contains a "s";
                        newline := negb (negb (newline st) || strings_Contains a "n") |}
                     Ha Hk).
      cbn [action key secret newline] in IH.
      destruct (positionals rest); [| done].
      rewrite IH. cbn [andb]. f_equal. f_equal.
      * by rewrite orb_assoc.
      * destruct (newline st), (strings_Contains a "n"); done.
    + by rewrite !bool_decide_eq_false_2.
Qed.

(** The action taken, the key still open. *)
Lemma parseArgs_from_action args st :
  action st ≠ "" → key st = "" →
  Forall (λ a, help_word a = false ∧ a ≠ "") args →
  match positionals args with
  | [] =>
      snd (parseArgs_from args st) = Some "no key specified" ∧
      action (fst (parseArgs_from args st)) = action st
  | [k] =>
      parseArgs_from args st =
      ({| action := action st; key := k;
          secret := secret st || option_letter "s" args;
          newline := newline st && negb (option_letter "n" args) |}, None)
  | k :: _ :: _ =>
      snd (parseArgs_from args st) = Some "one key at a time" ∧
      action (fst (parseArgs_from args st)) = action st ∧
      key (fst (parseArgs_from args st)) = k
  end.
Proof.
  intros Ha Hk Hargs. revert st Ha Hk.
  induction Hargs as [|a rest [Hhelp Hne] Hrest IH]; intros st Ha Hk.
  - cbn. rewrite bool_decide_eq_false_2 by done.
    by rewrite bool_decide_eq_true_2.
  - rewrite parseArgs_from_cons, positionals_cons, !option_letter_cons, Hhelp.
    destruct (is_option a) eqn:Hopt.
    + specialize (IH {| action := action st; key := key st;
                        secret := secret st || strings_Contains a "s";
                        newline := negb (negb (newline st) || strings_Contains a "n") |}
                     Ha Hk).
      cbn [action key secret newline] in IH.
      destruct (positionals rest) as [|k [|k' more]]; [done | | done].
      rewrite IH. cbn [andb]. f_equal. f_equal.
      * by rewrite orb_assoc.
      * destruct (newline st), (strings_Contains a "n"); done.
    + rewrite bool_decide_eq_false_2 by done. rewrite bool_decide_eq_true_2 by done.
      pose proof (parseArgs_from_full rest
                    {| action := action st; key := a;
                       secret := secret st; newline := newline st |}
                    Ha Hne) as Hfull.
      cbn [action key secret newline] in Hfull.
      destruct (positionals rest); apply Hfull;
        eapply Forall_impl; eauto; by intros x [Hx _].
Qed.

(** X16.  Without a help word and without empty arguments, [parseArgs]
    goes by the arguments that do not start with "-", wherever the
    options stand among them: none is "no action specified", one is "no
    key specified", three or more is "one key at a time"; exactly two
    are the action and the key, and then [secret] says whether some
    option holds an "s" and [newline] whether no option holds an "n". *)
Theorem parseArgs_by_positionals args :
  Forall (λ a, help_word a = false ∧ a ≠ "") args →
  match positionals args with
  | [] => snd (parseArgs args) = Some "no action specified"
  | [a] =>
      snd (parseArgs args) = Some "no key specified" ∧
      action (fst (parseArgs args)) = a
  | [a; k] =>
      parseArgs args =
      ({| action := a; key := k;
          secret := option_letter "s" args;
          newline := negb (option_letter "n" args) |}, None)
  | a :: k :: _ :: _ =>
      snd (parseArgs args) = Some "one key at a time" ∧
      action (fst (parseArgs args)) = a ∧
      key (fst (parseArgs args)) = k
  end.
Proof.
  unfold parseArgs.
  assert (Hgen : ∀ sec nl,
    Forall (λ a, help_word a = false ∧ a ≠ "") args →
    match positionals args with
    | [] =>
        snd (parseArgs_from args {| action := ""; key := ""; secret := sec; newline := nl |})
        = Some "no action specified"
    | [a] =>
        snd (parseArgs_from args {| action := ""; key := ""; secret := sec; newline := nl |})
        = Some "no key specified" ∧
        action (fst (parseArgs_from args
                       {| action := ""; key := ""; secret := sec; newline := nl |})) = a
    | [a; k] =>
        parseArgs_from args {| action := ""; key := ""; secret := sec; newline := nl |} =
        ({| action := a; key := k;
            secret := sec || option_letter "s" args;
            newline := nl && negb (option_letter "n" args) |}, None)
    | a :: k :: _ :: _ =>
        snd (parseArgs_from args {| action := ""; key := ""; secret := sec; newline := nl |})
        = Some "one key at a time" ∧
        action (fst (parseArgs_from args
                       {| action := ""; key := ""; secret := sec; newline := nl |})) = a ∧
        key (fst (parseArgs_from args
                    {| action := ""; key := ""; secret := sec; newline := nl |})) = k
    end).
  { clear. intros sec nl Hargs. revert sec nl.
    induction Hargs as [|a rest [Hhelp Hne] Hrest IH]; intros sec nl.
    - done.
    - rewrite parseArgs_from_cons, positionals_cons, !option_letter_cons, Hhelp.
      destruct (is_option a) eqn:Hopt.
      + cbn [action key secret newline].
        specialize (IH (sec || strings_Contains a "s")
                       (negb (negb nl || strings_Contains a "n"))).
        destruct (positionals rest) as [|x [|k [|k' more]]]; [done | done | | done].
        rewrite IH. cbn [andb]. f_equal. f_equal.
        * by rewrite orb_assoc.
        * destruct nl, (strings_Contains a "n"); done.
      + cbn [action key secret newline]. rewrite bool_decide_eq_true_2 by done.
        pose proof (parseArgs_from_action rest
                      {| action := a; key := ""; secret := sec; newline := nl |}
                      Hne eq_refl Hrest) as Hact.
        cbn [action key secret newline] in Hact.
        destruct (positionals rest) as [|k [|k' more]]; done. }
  intros Hargs. specialize (Hgen false true Hargs).
  destruct (positionals args) as [|a [|k [|k' more]]]; done.
Qed.

(** X17.  A help word ("-h", "--help", "-?" or "help") ends the
    parsing: when at most two arguments before it do not start with "-",
    [parseArgs] returns the action "help" and no error, without looking
    for a key and whatever follows the help word; the two flags are
    those of the options before it. *)
Theorem parseArgs_help pre h post :
  help_word h = true →
  Forall (λ a, help_word a = false) pre →
  length (positionals pre) ≤ 2 →
  snd (parseArgs (pre ++ h :: post)) = None ∧
  action (fst (parseArgs (pre ++ h :: post))) = actHelp ∧
  secret (fst (parseArgs (pre ++ h :: post))) = option_letter "s" pre ∧
  newline (fst (parseArgs (pre ++ h :: post))) = negb (option_letter "n" pre).
Proof.
  intros Hh Hpre Hlen.
  (* from any state: as many words may come as places are still open *)
  assert (Hgen : ∀ st,
    length (positionals pre)
      ≤ (if bool_decide (action st = "") then 1 else 0)
        + (if bool_decide (key st = "") then 1 else 0) →
    snd (parseArgs_from (pre ++ h :: post) st) = None ∧
    action (fst (parseArgs_from (pre ++ h :: post) st)) = actHelp ∧
    secret (fst (parseArgs_from (pre ++ h :: post) st))
      = secret st || option_letter "s" pre ∧
    newline (fst (parseArgs_from (pre ++ h :: post) st))
      = newline st && negb (option_letter "n" pre)).
  { clear Hlen. induction Hpre as [|a rest Hhelp _ IH]; intros st Hfree.
    - cbn [app]. rewrite parseArgs_from_cons, Hh. cbn.
      by rewrite orb_false_r, andb_true_r.
    - cbn [app]. rewrite parseArgs_from_cons, Hhelp, !option_letter_cons.
      rewrite positionals_cons in Hfree.
      destruct (is_option a) eqn:Hopt.
      + specialize (IH {| action := action st; key := key st;
                          secret := secret st || strings_Contains a "s";
                          newline := negb (negb (newline st) || strings_Contains a "n") |}
                       Hfree).
        cbn [action key secret newline] in IH.
        destruct IH as (-> & -> & -> & ->). cbn [andb].
        split; [done |]. split; [done |]. split; [by rewrite orb_assoc |].
        destruct (newline st), (strings_Contains a "n"); done.
      + cbn [length] in Hfree. cbn [andb orb].
        destruct (bool_decide (action st = "")) eqn:Hact.
        * apply (IH {| action := a; key := key st;
                       secret := secret st; newline := newline st |}).
          cbn [action key]. destruct (bool_decide (a = "")); lia.
        * destruct (bool_decide (key st = "")) eqn:Hkey; [| lia].
          apply (IH {| action := action st; key := a;
                       secret := secret st; newline := newline st |}).
          cbn [action key]. rewrite Hact. destruct (bool_decide (a = "")); lia. }
  unfold parseArgs.
  by apply (Hgen {| action := ""; key := ""; secret := false; newline := true |}).
Qed.

(** X18.  What [parseArgs] returns without error is the help action or
    an action and a key that are both non-empty, do not start with "-"
    and are no help words: a key that starts with "-", or the key
    "help", cannot be given on the command line. *)
Theorem parseArgs_selects_plain_words args p :
  parseArgs args = (p, None) →
  action p = actHelp ∨
  (action p ≠ "" ∧ key p ≠ "" ∧
   is_option (action p) = false ∧ is_option (key p) = false ∧
   help_word (action p) = false ∧ help_word (key p) = false).
Proof.
  (* the places of a state hold a plain word or nothing yet *)
  assert (Hgen : ∀ st,
    is_option (action st) = false → help_word (action st) = false →
    is_option (key st) = false → help_word (key st) = false →
    parseArgs_from args st = (p, None) →
    action p = actHelp ∨
    (action p ≠ "" ∧ key p ≠ "" ∧
     is_option (action p) = false ∧ is_option (key p) = false ∧
     help_word (action p) = false ∧ help_word (key p) = false)).
  { induction args as [|a rest IH]; intros st Hao Hah Hko Hkh.
    - cbn. case_bool_decide; [done |]. case_bool_decide; [done |].
      intros [= <-]. by right.
    - rewrite parseArgs_from_cons.
      destruct (help_word a) eqn:Hhelp; [intros [= <-]; by left |].
      destruct (is_option a) eqn:Hopt; [by apply IH |].
      case_bool_decide; [by apply IH |].
      case_bool_decide; [by apply IH | done]. }
  unfold parseArgs. by apply Hgen.
Qed.

End CliFacts.

(** ** The further properties at concrete inputs *)

Lemma encrypt_then_decrypt_witness :
  Sample.nonce0 = take 12 (rand_Reader (Demo.env 1)) ∧
  length Sample.nonce0 = 12 ∧
  decrypt (Some Demo.password) Demo.salt0 Sample.nonce0 Sample.sealed0
    = Ok (bytes_of_string "testing123").
Proof.
  apply (encrypt_then_decrypt (L := StandInFacts.laws) (rand_Reader (Demo.env 1))
           (Some Demo.password) Demo.salt0 (bytes_of_string "testing123")
           Sample.sealed0 Sample.nonce0).
  vm_compute. reflexivity.
Defined.

Lemma encrypt_needs_twelve_random_bytes_witness :
  (∃ sealed, encrypt (rand_Reader (Demo.env 1)) (Some Demo.password) Demo.salt0 []
             = Ok (sealed, take 12 (rand_Reader (Demo.env 1)))) ∧
  encrypt [] (Some Demo.password) Demo.salt0 [] = Err io_EOF ∧
  encrypt (rand_Reader Sample.dry_env) (Some Demo.password) Demo.salt0 []
    = Err io_ErrUnexpectedEOF.
Proof.
  split; [| split].
  - apply (proj1 (encrypt_needs_twelve_random_bytes (L := StandInFacts.laws)
                    (rand_Reader (Demo.env 1)) (Some Demo.password) Demo.salt0 [])).
    vm_compute. lia.
  - apply (proj1 (proj2 (encrypt_needs_twelve_random_bytes (L := StandInFacts.laws)
                           [] (Some Demo.password) Demo.salt0 []))).
    reflexivity.
  - apply (proj2 (proj2 (encrypt_needs_twelve_random_bytes (L := StandInFacts.laws)
                           (rand_Reader Sample.dry_env) (Some Demo.password) Demo.salt0 []))).
    vm_compute. lia.
Defined.

Lemma decrypt_outcomes_witness :
  ((∃ plaintext,
      decrypt (Some Sample.other_password) Demo.salt0 Sample.nonce0 Sample.sealed0
      = Ok plaintext) ∨
   decrypt (Some Sample.other_password) Demo.salt0 Sample.nonce0 Sample.sealed0
   = Err ErrBadPassword) ∧
  decrypt (Some Demo.password) Demo.salt0 (bytes_of_string "0123") Sample.sealed0
  = Panic "crypto/cipher: incorrect nonce length given to GCM".
Proof.
  split.
  - apply (proj1 (proj2 (decrypt_outcomes (L := StandInFacts.laws)
                           (Some Sample.other_password) Demo.salt0
                           Sample.nonce0 Sample.sealed0))).
    reflexivity.
  - apply (proj1 (proj2 (proj2 (decrypt_outcomes (L := StandInFacts.laws)
                                  (Some Demo.password) Demo.salt0
                                  (bytes_of_string "0123") Sample.sealed0)))).
    vm_compute. lia.
Defined.

Lemma stow_succeeds_exactly_when_witness :
  is_Some (storage Sample.one_secret) ∧
  (∃ t, storage Sample.one_secret = Some t ∧ 12 ≤ length (rand_Reader (Sample.later_env 2)) ∧
        ∀ K' r, t !! K' = Some r →
                nonce r = Some (take 12 (rand_Reader (Sample.later_env 2))) → K' = "second").
Proof.
  split.
  - apply (proj1 (proj1 (stow_succeeds_exactly_when (L := StandInFacts.laws)
                    Demo.depot "second" "value" [] (Demo.env 2) Sample.one_secret))).
    eexists. vm_compute. reflexivity.
  - apply (proj1 (proj2 (stow_succeeds_exactly_when (L := StandInFacts.laws)
                    Demo.depot "second" "value" Demo.password
                    (Sample.later_env 2) Sample.one_secret))).
    eexists. vm_compute. reflexivity.
Defined.

Lemma stow_failures_witness :
  (∃ e, Stow Demo.depot "second" "value" (Some Demo.password) Sample.dry_env Sample.one_secret
        = (Err (fmt_Errorf "cannot encrypt data" e), Sample.one_secret) ∧
        (e = io_EOF ∨ e = io_ErrUnexpectedEOF)) ∧
  Stow Demo.depot "second" "value" None (Demo.env 2) Demo.blank
  = (Err (fmt_Errorf "cannot access database" (sqlite3_Error "no such table: storage")),
     Demo.blank) ∧
  Stow Demo.depot "second" "value" (Some Demo.password) (Demo.env 2) Sample.one_secret
  = (Err (fmt_Errorf "cannot access database"
            (sqlite3_Error "UNIQUE constraint failed: storage.nonce")), Sample.one_secret).
Proof.
  split; [| split].
  - apply (proj1 (stow_failures (L := StandInFacts.laws) Demo.depot "second" "value"
                    Demo.password Sample.dry_env Sample.one_secret)).
    vm_compute. lia.
  - apply (proj1 (proj1 (proj2 (stow_failures (L := StandInFacts.laws) Demo.depot
                                  "second" "value" Demo.password (Demo.env 2) Demo.blank))
                    eq_refl)).
  - apply (proj2 (proj2 (stow_failures (L := StandInFacts.laws) Demo.depot "second" "value"
                           Demo.password (Demo.env 2) Sample.one_secret))
             (<["first" := Sample.row0]> ∅) "first" Sample.row0).
    + vm_compute. reflexivity.
    + vm_compute. lia.
    + vm_compute. reflexivity.
    + discriminate.
    + vm_compute. reflexivity.
Defined.

Lemma stow_leaves_other_keys_witness :
  let s' := snd (Stow Demo.depot "new" "value" (Some Demo.password)
                      (Sample.later_env 2) Demo.stocked) in
  Rev1.Fetch Demo.depot "plain" None s' = Rev1.Fetch Demo.depot "plain" None Demo.stocked ∧
  Rev2.Fetch Demo.depot "plain" None s' = Rev2.Fetch Demo.depot "plain" None Demo.stocked ∧
  Rev1.Peek Demo.depot "plain" s' = Rev1.Peek Demo.depot "plain" Demo.stocked.
Proof.
  apply (stow_leaves_other_keys (L := StandInFacts.laws) Demo.depot "new" "value"
           (Some Demo.password) (Sample.later_env 2) Demo.stocked (Ok ())
           (snd (Stow Demo.depot "new" "value" (Some Demo.password)
                      (Sample.later_env 2) Demo.stocked))).
  - vm_compute. reflexivity.
  - discriminate.
Defined.

Lemma drop_leaves_other_keys_witness :
  let s' := snd (Drop Demo.depot "secret" Demo.stocked) in
  salt_rows s' = salt_rows Demo.stocked ∧
  ∀ db' K' password', K' ≠ "secret" →
    Rev1.Fetch db' K' password' s' = Rev1.Fetch db' K' password' Demo.stocked ∧
    Rev2.Fetch db' K' password' s' = Rev2.Fetch db' K' password' Demo.stocked ∧
    Rev1.Peek db' K' s' = Rev1.Peek db' K' Demo.stocked.
Proof.
  apply (drop_leaves_other_keys Demo.depot "secret" Demo.stocked (Ok ())).
  vm_compute. reflexivity.
Defined.

Lemma peek_agrees_with_fetch_witness :
  (∀ password,
     Rev1.Fetch Demo.depot "plain" password Demo.stocked
       = Ok (Rev1.Peek Demo.depot "plain" Demo.stocked) ∧
     Rev2.Fetch Demo.depot "plain" password Demo.stocked
       = Ok (Rev1.Peek Demo.depot "plain" Demo.stocked)) ∧
  Rev1.Peek Demo.depot "empty" Sample.with_empty_value = EmptyString ∧
  (∀ password,
     Rev1.Fetch Demo.depot "empty" password Sample.with_empty_value = Ok EmptyString ∧
     Rev2.Fetch Demo.depot "empty" password Sample.with_empty_value = Ok EmptyString).
Proof.
  split.
  - apply (proj1 (proj2 (peek_agrees_with_fetch Demo.depot "plain" Demo.stocked))).
    vm_compute. discriminate.
  - apply (proj2 (proj2 (peek_agrees_with_fetch Demo.depot "empty" Sample.with_empty_value))
             {| modified := 1; val := EmptyString; nonce := None |}).
    + vm_compute. reflexivity.
    + reflexivity.
    + reflexivity.
Defined.

Lemma last_stow_wins_witness :
  let s1 := snd (Stow Demo.depot "key" "first" None (Demo.env 1) Demo.opened) in
  fst (Stow Demo.depot "key" "second" (Some Demo.password) (Demo.env 2) s1)
    = fst (Stow Demo.depot "key" "second" (Some Demo.password) (Demo.env 2) Demo.opened) ∧
  snd (Stow Demo.depot "key" "second" (Some Demo.password) (Demo.env 2) s1)
    = snd (Stow Demo.depot "key" "second" (Some Demo.password) (Demo.env 2) Demo.opened).
Proof.
  cbv zeta.
  destruct (last_stow_wins (L := StandInFacts.laws) Demo.depot "key" "first" "second"
              None (Some Demo.password) (Demo.env 1) (Demo.env 2) Demo.opened
              (snd (Stow Demo.depot "key" "first" None (Demo.env 1) Demo.opened)))
    as [Hfst Hsnd].
  - vm_compute. reflexivity.
  - split; [exact Hfst |]. apply Hsnd. vm_compute. reflexivity.
Defined.

Lemma drop_undoes_stow_witness :
  Drop Demo.depot "new"
       (snd (Stow Demo.depot "new" "value" (Some Demo.password)
                  (Sample.later_env 2) Demo.stocked))
  = (Ok (), Demo.stocked).
Proof.
  destruct (drop_undoes_stow (L := StandInFacts.laws) Demo.depot "new" "value"
              (Some Demo.password) (Sample.later_env 2) Demo.stocked
              (snd (Stow Demo.depot "new" "value" (Some Demo.password)
                         (Sample.later_env 2) Demo.stocked)))
    as [_ Hback].
  - vm_compute. reflexivity.
  - apply Hback. vm_compute. reflexivity.
Defined.

Lemma listings_differ_on_nil_password_witness :
  let s := snd (Stow Demo.depot "key" "testing123" (Some []) (Demo.env 1) Demo.opened) in
  Rev1.Fetch Demo.depot "key" None s = Ok "testing123" ∧
  Rev2.Fetch Demo.depot "key" None s = Err ErrPasswordNeeded.
Proof.
  apply (proj2 (proj2 (listings_differ_on_nil_password (L := StandInFacts.laws)
                         Demo.depot "key"
                         (snd (Stow Demo.depot "key" "testing123" (Some [])
                                    (Demo.env 1) Demo.opened))))
           "testing123" (Demo.env 1) Demo.opened).
  vm_compute. reflexivity.
Defined.

Lemma one_secret_reachable : reachable Sample.one_secret.
Proof.
  unfold Sample.one_secret. apply reach_Stow.
  change Demo.opened with (snd (NewDepot (Demo.env 1) Demo.blank)).
  apply reach_NewDepot. apply reach_blank.
Defined.

Lemma fetch_is_regular_on_reachable_witness :
  regular_result (Rev1.Fetch Demo.depot "first" (Some Sample.other_password) Sample.one_secret)
    = true ∧
  regular_result (Rev2.Fetch Demo.depot "first" (Some Sample.other_password) Sample.one_secret)
    = true.
Proof.
  apply (fetch_is_regular_on_reachable (L := StandInFacts.laws) Sample.one_secret).
  exact one_secret_reachable.
Defined.

Lemma nonces_are_unique_on_reachable_witness : "first" = "first".
Proof.
  apply (nonces_are_unique_on_reachable (L := StandInFacts.laws) Sample.one_secret
           one_secret_reachable "first" "first" Sample.row0 Sample.row0 Sample.nonce0).
  - vm_compute. reflexivity.
  - vm_compute. reflexivity.
  - reflexivity.
  - reflexivity.
Defined.


Lemma newdepot_fails_then_recovers_witness :
  ∃ e s1,
    NewDepot Sample.dry_env Demo.blank
      = (Err (fmt_Errorf "cannot generate random salt" e), s1) ∧
    (e = io_EOF ∨ e = io_ErrUnexpectedEOF) ∧
    storage s1 = Some (default ∅ (storage Demo.blank)) ∧ salt_rows s1 = Some [] ∧
    NewDepot (Demo.env 1) s1 =
      (Ok {| salt := take 32 (rand_Reader (Demo.env 1)) |},
       {| storage := storage s1; salt_rows := Some [take 32 (rand_Reader (Demo.env 1))] |}).
Proof.
  apply (newdepot_fails_then_recovers Sample.dry_env (Demo.env 1) Demo.blank).
  - reflexivity.
  - vm_compute. lia.
  - vm_compute. lia.
Defined.

Lemma parseArgs_by_positionals_witness :
  Cli.parseArgs ["fetch"; "-n"; "mail"; "--quiet"] =
  ({| Cli.action := "fetch"; Cli.key := "mail";
      Cli.secret := Cli.option_letter "s" ["fetch"; "-n"; "mail"; "--quiet"];
      Cli.newline := negb (Cli.option_letter "n" ["fetch"; "-n"; "mail"; "--quiet"]) |},
   None).
Proof.
  apply (CliFacts.parseArgs_by_positionals ["fetch"; "-n"; "mail"; "--quiet"]).
  repeat constructor; discriminate.
Defined.

Lemma parseArgs_help_witness :
  snd (Cli.parseArgs (["-s"; "stow"] ++ "--help" :: ["a"; "b"; "c"])) = None ∧
  Cli.action (fst (Cli.parseArgs (["-s"; "stow"] ++ "--help" :: ["a"; "b"; "c"])))
    = Cli.actHelp ∧
  Cli.secret (fst (Cli.parseArgs (["-s"; "stow"] ++ "--help" :: ["a"; "b"; "c"])))
    = Cli.option_letter "s" ["-s"; "stow"] ∧
  Cli.newline (fst (Cli.parseArgs (["-s"; "stow"] ++ "--help" :: ["a"; "b"; "c"])))
    = negb (Cli.option_letter "n" ["-s"; "stow"]).
Proof.
  apply (CliFacts.parseArgs_help ["-s"; "stow"] "--help" ["a"; "b"; "c"]).
  - reflexivity.
  - repeat constructor.
  - vm_compute. lia.
Defined.

Lemma parseArgs_selects_plain_words_witness :
  Cli.actStow = Cli.actHelp ∨
  (Cli.actStow ≠ "" ∧ "mail" ≠ "" ∧
   Cli.is_option Cli.actStow = false ∧ Cli.is_option "mail" = false ∧
   Cli.help_word Cli.actStow = false ∧ Cli.help_word "mail" = false).
Proof.
  apply (CliFacts.parseArgs_selects_plain_words ["-s"; "stow"; "mail"]
           {| Cli.action := Cli.actStow; Cli.key := "mail";
              Cli.secret := true; Cli.newline := true |}).
  vm_compute. reflexivity.
Defined.
